(** * Configuration editor of the control UI: schema normaliser, path mutator
      and config state

    A shallow embedding of
      - [ui/src/ui/controllers/config.ts] (snapshot application, form value,
        save and load, [setPathValue], [removePathValue]) and
      - the schema analysis of the config form view ([analyzeConfigSchema],
        [normalizeSchemaNode], [normalizeUnion], [normalizeEnumValues]), with
        its [schemaType], [pathKey] and [defaultValue] and the patches that
        the buttons and key inputs of its lists and map fields hand on,
    followed by the properties proved about them.

    Conventions of the embedding.
      - A JavaScript value is a term of [value].  Numbers are the integers
        among the doubles (ports, limits, sizes); the code under study does
        no arithmetic on them.
      - An object is the list of its own properties in [Object.entries]
        order.  Names inherited from the prototypes ([constructor],
        [__proto__], ...) are not represented; the test [key in next] of the
        form view counts them through [hasProperty].
      - An array carries its elements (a hole reads as [undefined] and is
        stored as [VUndefined]) and its named, non-index own properties.
      - In-place mutation of a tree that nothing else references is written
        as a function from the old tree to the new one.
      - A computation that raises an exception, or that reaches an
        assignment to the [length] of an array, has no result ([None]). *)

From Stdlib Require Import ZArith Lia Ascii String.
From stdpp Require Import base option list strings pretty.



(* ================================================================== *)
(** * Part I: the program                                              *)
(* ================================================================== *)

(** ** Values *)

#[warning="-register-all"]
Inductive value : Type :=
| VUndefined
| VNull
| VBool (b : bool)
| VNum (z : Z)
| VStr (s : string)
| VArr (elems : list value) (props : list (string * value))
| VObj (fields : list (string * value)).

Definition emptyObject : value := VObj [].
Definition emptyArray : value := VArr [] [].

(** [v == null] *)
Definition nullish (v : value) : bool :=
  match v with VUndefined | VNull => true | _ => false end.

(** [Array.isArray(v)] *)
Definition isArray (v : value) : bool :=
  match v with VArr _ _ => true | _ => false end.

(** [typeof v === "object" && v != null] *)
Definition isObject (v : value) : bool :=
  match v with VArr _ _ | VObj _ => true | _ => false end.

(** A plain mapping, as opposed to a sequence. *)
Definition isMapping (v : value) : bool :=
  match v with VObj _ => true | _ => false end.

(** string, number or boolean *)
Definition isScalar (v : value) : bool :=
  match v with VBool _ | VNum _ | VStr _ => true | _ => false end.

(** Truthiness, as tested by [if (v)], [v && ...] and [!v]. *)
Definition truthy (v : value) : bool :=
  match v with
  | VUndefined | VNull => false
  | VBool b => b
  | VNum z => negb (z =? 0)%Z
  | VStr s => negb (String.eqb s "")
  | VArr _ _ | VObj _ => true
  end.

(** [a ?? b] *)
Definition coalesce (a b : value) : value := if nullish a then b else a.

(** ** Own properties of objects *)

Section Properties.
Context {A : Type}.

Fixpoint obj_lookup (fs : list (string * A)) (k : string) : option A :=
  match fs with
  | [] => None
  | (k', x) :: fs' => if String.eqb k' k then Some x else obj_lookup fs' k
  end.

(** [o[k] = x]: an existing property keeps its place, a new one is added
    last. *)
Fixpoint obj_assign (fs : list (string * A)) (k : string) (x : A)
  : list (string * A) :=
  match fs with
  | [] => [(k, x)]
  | (k', y) :: fs' =>
      if String.eqb k' k then (k', x) :: fs' else (k', y) :: obj_assign fs' k x
  end.

(** [delete o[k]] *)
Fixpoint obj_delete (fs : list (string * A)) (k : string)
  : list (string * A) :=
  match fs with
  | [] => []
  | (k', y) :: fs' =>
      if String.eqb k' k then fs' else (k', y) :: obj_delete fs' k
  end.
End Properties.

(** ** Array elements *)

(** [a[n] = x]: writing past the end extends the array with holes. *)
Definition arr_write (es : list value) (n : nat) (x : value) : list value :=
  if (n <? length es)%nat then <[n := x]> es
  else es ++ replicate (n - length es) VUndefined ++ [x].

(** [a.splice(n, 1)] *)
Definition arr_splice1 (es : list value) (n : nat) : list value :=
  take n es ++ drop (S n) es.

(** A property name addresses an array element when it is the canonical
    decimal form of an integer below [2^32 - 1]. *)
Definition digit_of (a : ascii) : option N :=
  let c := N_of_ascii a in
  if ((48 <=? c) && (c <=? 57))%N then Some (c - 48)%N else None.

Fixpoint parse_digits (s : string) (acc : N) : option N :=
  match s with
  | EmptyString => Some acc
  | String a s' =>
      match digit_of a with
      | Some d => parse_digits s' (acc * 10 + d)%N
      | None => None
      end
  end.

Definition array_index_of_string (s : string) : option nat :=
  match s with
  | EmptyString => None
  | String "0"%char EmptyString => Some 0
  | String "0"%char _ => None
  | _ =>
      match parse_digits s 0 with
      | Some n => if (n <? 4294967295)%N then Some (N.to_nat n) else None
      | None => None
      end
  end.

Inductive array_key : Type :=
| ArrIndex (n : nat)
| ArrLength
| ArrNamed (s : string).

Definition classify_array_key (s : string) : array_key :=
  match array_index_of_string s with
  | Some n => ArrIndex n
  | None => if String.eqb s "length" then ArrLength else ArrNamed s
  end.

(** ** Path mutator *)

(** A path segment: an array index or an object key
    ([Array<string | number>]).  The numbers are array positions, as the form
    renderer emits them: naturals below [2^32 - 1]. *)
Inductive segment : Type :=
| Idx (n : nat)
| Key (s : string).

Definition is_idx (k : segment) : bool :=
  match k with Idx _ => true | Key _ => false end.

(** [typeof nextKey === "number" ? [] : {}] *)
Definition fresh (nextKey : segment) : value :=
  match nextKey with Idx _ => emptyArray | Key _ => emptyObject end.

(** The test that lets the walk go on from [current] with [key]: an index
    needs [Array.isArray(current)], a string needs
    [typeof current === "object" && current != null]. *)
Definition admits (current : value) (key : segment) : bool :=
  match key with
  | Idx _ => isArray current
  | Key _ => isObject current
  end.

(** [current[key]], for a container [current]. *)
Definition readSlot (current : value) (key : segment) : value :=
  match current, key with
  | VArr es ps, Idx n => default VUndefined (es !! n)
  | VArr es ps, Key s =>
      match classify_array_key s with
      | ArrIndex n => default VUndefined (es !! n)
      | ArrLength => VNum (Z.of_nat (length es))
      | ArrNamed s' => default VUndefined (obj_lookup ps s')
      end
  | VObj fs, Key s => default VUndefined (obj_lookup fs s)
  | VObj fs, Idx n => default VUndefined (obj_lookup fs (pretty n))
  | _, _ => VUndefined
  end.

(** [current[key] = x].  No result for a primitive [current] (a TypeError in
    module code) and for the [length] of an array. *)
Definition writeSlot (current : value) (key : segment) (x : value)
  : option value :=
  match current, key with
  | VArr es ps, Idx n => Some (VArr (arr_write es n x) ps)
  | VArr es ps, Key s =>
      match classify_array_key s with
      | ArrIndex n => Some (VArr (arr_write es n x) ps)
      | ArrLength => None
      | ArrNamed s' => Some (VArr es (obj_assign ps s' x))
      end
  | VObj fs, Key s => Some (VObj (obj_assign fs s x))
  | VObj fs, Idx n => Some (VObj (obj_assign fs (pretty n) x))
  | _, _ => None
  end.

(** [delete current[key]], for a string [key].  An element that is deleted
    leaves a hole; the [length] of an array cannot be deleted (TypeError in
    module code). *)
Definition deleteSlot (current : value) (s : string) : option value :=
  match current with
  | VArr es ps =>
      match classify_array_key s with
      | ArrIndex n =>
          Some (VArr (if (n <? length es)%nat then <[n := VUndefined]> es
                      else es) ps)
      | ArrLength => None
      | ArrNamed s' => Some (VArr es (obj_delete ps s'))
      end
  | VObj fs => Some (VObj (obj_delete fs s))
  | _ => None
  end.

(** [current.splice(n, 1)] *)
Definition spliceSlot (current : value) (n : nat) : value :=
  match current with
  | VArr es ps => VArr (arr_splice1 es n) ps
  | _ => current
  end.

(** The walk holds a reference to the child it read from [current[key]] and
    mutates the child in place.  Here the parent is rebuilt with the child as
    the walk left it.  A primitive child is a copy that the walk cannot
    change: the parent stays as it is (the only case for [length]). *)
Definition storeChild (current : value) (key : segment) (child : value)
  : value :=
  default current (writeSlot current key child).

(** [setPathValue(obj, path, value)]: the tree [obj] after the call. *)
Fixpoint setPathValue (current : value) (path : list segment) (v : value)
  : option value :=
  match path with
  | [] => Some current
  | key :: rest =>
      match rest with
      | [] =>
          if admits current key then writeSlot current key v
          else Some current
      | nextKey :: _ =>
          if admits current key then
            let slot := readSlot current key in
            if nullish slot then
              current1 ← writeSlot current key (fresh nextKey);
              child ← setPathValue (fresh nextKey) rest v;
              Some (storeChild current1 key child)
            else
              child ← setPathValue slot rest v;
              Some (storeChild current key child)
          else Some current
      end
  end.

(** [removePathValue(obj, path)]: the tree [obj] after the call. *)
Fixpoint removePathValue (current : value) (path : list segment)
  : option value :=
  match path with
  | [] => Some current
  | key :: rest =>
      match rest with
      | [] =>
          match key with
          | Idx n =>
              if isArray current then Some (spliceSlot current n)
              else Some current
          | Key s =>
              if isObject current then deleteSlot current s
              else Some current
          end
      | _ :: _ =>
          if admits current key then
            let slot := readSlot current key in
            if nullish slot then Some current
            else
              child ← removePathValue slot rest;
              Some (storeChild current key child)
          else Some current
      end
  end.

(** The value of the variable [current] of [setPathValue] when its loop
    ends, that is the container the final segment is applied to; [None] when
    the loop returns early. *)
Fixpoint containerReached (current : value) (path : list segment)
  : option value :=
  match path with
  | [] => None
  | key :: rest =>
      match rest with
      | [] => Some current
      | nextKey :: _ =>
          if admits current key then
            let slot := readSlot current key in
            containerReached (if nullish slot then fresh nextKey else slot) rest
          else None
      end
  end.

(** What the walk of [setPathValue] reads at the segment [key] that follows
    the segments [pre]. *)
Definition slotAt (tree : value) (pre : list segment) (key : segment)
  : option value :=
  current ← containerReached tree (pre ++ [key]);
  if admits current key then Some (readSlot current key) else None.

(** ** Schema normaliser *)

(** [type?: string | string[]] *)
Inductive type_spec : Type :=
| TypeName (t : string)
| TypeList (ts : list string).

(** The type [JsonSchema] of the form view.  A field that is absent, or
    present with the value [undefined], is [None]; [s_const] is [Some] when
    the key [const] is in the node. *)
#[warning="-register-all"]
Inductive JsonSchema : Type := mkJsonSchema {
  s_type : option type_spec;
  s_title : option string;
  s_description : option string;
  s_properties : option (list (string * JsonSchema));
  s_items : option (JsonSchema + list JsonSchema);
  s_additionalProperties : option (JsonSchema + bool);
  s_enum : option (list value);
  s_const : option value;
  s_default : option value;
  s_anyOf : option (list JsonSchema);
  s_oneOf : option (list JsonSchema);
  s_allOf : option (list JsonSchema);
  s_nullable : option bool
}.

Record ConfigSchemaAnalysis : Type := mkAnalysis {
  schema : option JsonSchema;
  unsupportedPaths : list string
}.

(** The node [{}]. *)
Definition emptySchema : JsonSchema :=
  mkJsonSchema None None None None None None None None None None None None
    None.

(** Field updates of a schema node. *)
Definition set_type (t : option type_spec) (s : JsonSchema) : JsonSchema :=
  mkJsonSchema t (s_title s) (s_description s) (s_properties s) (s_items s)
    (s_additionalProperties s) (s_enum s) (s_const s) (s_default s)
    (s_anyOf s) (s_oneOf s) (s_allOf s) (s_nullable s).

Definition set_properties (ps : option (list (string * JsonSchema)))
    (s : JsonSchema) : JsonSchema :=
  mkJsonSchema (s_type s) (s_title s) (s_description s) ps (s_items s)
    (s_additionalProperties s) (s_enum s) (s_const s) (s_default s)
    (s_anyOf s) (s_oneOf s) (s_allOf s) (s_nullable s).

Definition set_items (it : option (JsonSchema + list JsonSchema))
    (s : JsonSchema) : JsonSchema :=
  mkJsonSchema (s_type s) (s_title s) (s_description s) (s_properties s) it
    (s_additionalProperties s) (s_enum s) (s_const s) (s_default s)
    (s_anyOf s) (s_oneOf s) (s_allOf s) (s_nullable s).

Definition set_additionalProperties (ap : option (JsonSchema + bool))
    (s : JsonSchema) : JsonSchema :=
  mkJsonSchema (s_type s) (s_title s) (s_description s) (s_properties s)
    (s_items s) ap (s_enum s) (s_const s) (s_default s)
    (s_anyOf s) (s_oneOf s) (s_allOf s) (s_nullable s).

Definition set_enum (e : option (list value)) (s : JsonSchema) : JsonSchema :=
  mkJsonSchema (s_type s) (s_title s) (s_description s) (s_properties s)
    (s_items s) (s_additionalProperties s) e (s_const s) (s_default s)
    (s_anyOf s) (s_oneOf s) (s_allOf s) (s_nullable s).

Definition set_nullable (n : option bool) (s : JsonSchema) : JsonSchema :=
  mkJsonSchema (s_type s) (s_title s) (s_description s) (s_properties s)
    (s_items s) (s_additionalProperties s) (s_enum s) (s_const s) (s_default s)
    (s_anyOf s) (s_oneOf s) (s_allOf s) n.

Definition set_const (c : option value) (s : JsonSchema) : JsonSchema :=
  mkJsonSchema (s_type s) (s_title s) (s_description s) (s_properties s)
    (s_items s) (s_additionalProperties s) (s_enum s) c (s_default s)
    (s_anyOf s) (s_oneOf s) (s_allOf s) (s_nullable s).

Definition set_anyOf (vs : option (list JsonSchema)) (s : JsonSchema)
  : JsonSchema :=
  mkJsonSchema (s_type s) (s_title s) (s_description s) (s_properties s)
    (s_items s) (s_additionalProperties s) (s_enum s) (s_const s) (s_default s)
    vs (s_oneOf s) (s_allOf s) (s_nullable s).

(** [anyOf: undefined, oneOf: undefined, allOf: undefined] *)
Definition clear_unions (s : JsonSchema) : JsonSchema :=
  mkJsonSchema (s_type s) (s_title s) (s_description s) (s_properties s)
    (s_items s) (s_additionalProperties s) (s_enum s) (s_const s) (s_default s)
    None None None (s_nullable s).

(** [schemaType(schema)] *)
Definition schemaType (s : JsonSchema) : option string :=
  match s_type s with
  | None => None
  | Some (TypeName t) => Some t
  | Some (TypeList ts) =>
      match List.filter (λ t, negb (String.eqb t "null")) ts with
      | t :: _ => Some t
      | [] => head ts
      end
  end.

(** [type === name] *)
Definition is_type (name : string) (type : option string) : bool :=
  match type with
  | Some t => String.eqb t name
  | None => false
  end.

(** The branch that [normalizeSchemaNode] takes on [type]. *)
Inductive node_kind : Type := KObject | KArray | KPrimitive | KOther.

Definition node_kind_of (type : option string) : node_kind :=
  if is_type "object" type then KObject
  else if is_type "array" type then KArray
  else if is_type "string" type || is_type "number" type
          || is_type "integer" type || is_type "boolean" type then KPrimitive
  else KOther.

(** [path.filter((segment) => typeof segment === "string").join(".")] *)
Fixpoint join_dot (names : list string) : string :=
  match names with
  | [] => ""
  | [n] => n
  | n :: rest => n +:+ "." +:+ join_dot rest
  end.

Definition segment_names (path : list segment) : list string :=
  omap (λ k, match k with Key s => Some s | Idx _ => None end) path.

Definition pathKey (path : list segment) : string :=
  join_dot (segment_names path).

(** [pathKey(path) || "<root>"] *)
Definition pathLabel (path : list segment) : string :=
  if String.eqb (pathKey path) "" then "<root>" else pathKey path.

(** [Object.is(a, b)].  A schema arrives as JSON, so that no two of its
    objects or arrays are one and the same object: among the values compared
    here, only primitives can be identical. *)
Definition object_is (a b : value) : bool :=
  match a, b with
  | VUndefined, VUndefined => true
  | VNull, VNull => true
  | VBool x, VBool y => Bool.eqb x y
  | VNum x, VNum y => (x =? y)%Z
  | VStr x, VStr y => String.eqb x y
  | _, _ => false
  end.

(** [if (!unique.some((entry) => same(entry, x))) unique.push(x)], and the
    loop that applies it to every element; also [Array.from(new Set(xs))]
    for strings. *)
Section Dedupe.
Context {A : Type} (same : A → A → bool).

Definition push_unique (unique : list A) (x : A) : list A :=
  if existsb (λ entry, same entry x) unique then unique else unique ++ [x].

Definition dedupe_from (unique xs : list A) : list A :=
  fold_left push_unique xs unique.

Definition dedupe (xs : list A) : list A := dedupe_from [] xs.
End Dedupe.

(** [normalizeEnumValues(values)]: the pair [(enumValues, nullable)]. *)
Definition normalizeEnumValues (values : list value) : list value * bool :=
  let filtered := List.filter (λ v, negb (nullish v)) values in
  let nullable := negb (length filtered =? length values)%nat in
  (dedupe object_is filtered, nullable).

(** [anyOf ?? oneOf ?? allOf] *)
Definition first_present {A : Type} (anyOf oneOf allOf : option A)
  : option A :=
  match anyOf with
  | Some vs => Some vs
  | None =>
      match oneOf with
      | Some vs => Some vs
      | None => allOf
      end
  end.

(** [schema.anyOf ?? schema.oneOf ?? schema.allOf] *)
Definition unionVariants (s : JsonSchema) : option (list JsonSchema) :=
  first_present (s_anyOf s) (s_oneOf s) (s_allOf s).

(** What the loop of [normalizeUnion] has gathered: [values], [nonLiteral]
    and [nullable]. *)
Record union_scan (V : Type) : Type := mkScan {
  scan_values : list value;
  scan_nonLiteral : list V;
  scan_nullable : bool
}.
Arguments mkScan {V}.
Arguments scan_values {V}.
Arguments scan_nonLiteral {V}.
Arguments scan_nullable {V}.

(** One turn of the loop over the variants; every variant is a schema object,
    as the type [JsonSchema[]] says.  A variant comes with what the caller
    wants to keep about it in [nonLiteral]. *)
Definition scan_variant {V : Type} (acc : union_scan V)
    (variant : JsonSchema) (keep : V) : union_scan V :=
  match s_enum variant with
  | Some vs =>
      let '(enumValues, enumNullable) := normalizeEnumValues vs in
      mkScan (scan_values acc ++ enumValues) (scan_nonLiteral acc)
        (if enumNullable then true else scan_nullable acc)
  | None =>
      match s_const variant with
      | Some c =>
          if nullish c
          then mkScan (scan_values acc) (scan_nonLiteral acc) true
          else mkScan (scan_values acc ++ [c]) (scan_nonLiteral acc)
                 (scan_nullable acc)
      | None =>
          if is_type "null" (schemaType variant)
          then mkScan (scan_values acc) (scan_nonLiteral acc) true
          else mkScan (scan_values acc) (scan_nonLiteral acc ++ [keep])
                 (scan_nullable acc)
      end
  end.

Definition scan_variants {V : Type} (variants : list (JsonSchema * V))
  : union_scan V :=
  fold_left (λ acc '(variant, keep), scan_variant acc variant keep)
    variants (mkScan [] [] false).

(** [normalizeUnion(schema, path)], after its first two lines.  Each variant
    is paired with the result of [normalizeSchemaNode(variant, path)]; the
    source computes it for [nonLiteral[0]] only, and only in the branch that
    returns it.  [None] is the result [null]. *)
Definition normalizeUnion (s : JsonSchema)
    (variants : list (JsonSchema * ConfigSchemaAnalysis))
  : option ConfigSchemaAnalysis :=
  let scan := scan_variants variants in
  match scan_values scan, scan_nonLiteral scan with
  | _ :: _, [] =>
      Some (mkAnalysis
              (Some (clear_unions
                       (set_nullable (Some (scan_nullable scan))
                          (set_enum (Some (dedupe object_is (scan_values scan)))
                             s))))
              [])
  | _, [result] =>
      Some (mkAnalysis (set_nullable (Some true) <$> schema result)
              (unsupportedPaths result))
  | _, _ => None
  end.

(** The constant [nullable] of [normalizeSchemaNode]:
    [Array.isArray(schema.type) && schema.type.includes("null")] *)
Definition typeIncludesNull (s : JsonSchema) : bool :=
  match s_type s with
  | Some (TypeList ts) => existsb (String.eqb "null") ts
  | _ => false
  end.

(** The step [if (normalized.enum) { ... }] of [normalizeSchemaNode]: the
    node after it, and the paths it reports. *)
Definition normalizeEnumOf (normalized : JsonSchema) (path : list segment)
  : JsonSchema * list string :=
  match s_enum normalized with
  | Some vs =>
      let '(enumValues, enumNullable) := normalizeEnumValues vs in
      let n := set_enum (Some enumValues) normalized in
      (if enumNullable then set_nullable (Some true) n else n,
       match enumValues with [] => [pathLabel path] | _ => [] end)
  | None => (normalized, [])
  end.

(** The constant [type] of [normalizeSchemaNode]:
    [schemaType(schema) ??
       (schema.properties || schema.additionalProperties ? "object"
                                                         : undefined)] *)
Definition nodeType (s : JsonSchema) : option string :=
  match schemaType s with
  | Some t => Some t
  | None =>
      match s_properties s, s_additionalProperties s with
      | Some _, _ | _, Some (inl _) | _, Some (inr true) => Some "object"
      | _, _ => None
      end
  end.

(** [normalizeSchemaNode(schema, path)] *)
Fixpoint normalizeSchemaNode (s : JsonSchema) (path : list segment) {struct s}
  : ConfigSchemaAnalysis :=
  (* the variants, each with its [normalizeSchemaNode(variant, path)] *)
  let analysed (variants : option (list JsonSchema)) :=
    match variants with
    | Some vs =>
        Some (map (λ variant, (variant, normalizeSchemaNode variant path)) vs)
    | None => None
    end in
  match first_present (analysed (s_anyOf s)) (analysed (s_oneOf s))
          (analysed (s_allOf s))
  with
  | Some variants =>
      match normalizeUnion s variants with
      | Some union => union
      | None => mkAnalysis (Some s) [pathLabel path]
      end
  | None =>
      let type := nodeType s in
      let normalized0 :=
        set_nullable (if typeIncludesNull s then Some true else s_nullable s)
          (set_type (match type with
                     | Some t => Some (TypeName t)
                     | None => s_type s
                     end) s) in
      let '(normalized1, unsupported1) := normalizeEnumOf normalized0 path in
      let '(normalized2, unsupported2) :=
        match node_kind_of type with
        | KObject =>
            (* [Object.entries(schema.properties ?? {})], each child with
               its [normalizeSchemaNode(child, [...path, key])] *)
            let results :=
              match s_properties s with
              | Some props =>
                  map (λ '(key, child),
                         (key, normalizeSchemaNode child (path ++ [Key key])))
                    props
              | None => []
              end in
            (* [if (result.schema) normalizedProps[key] = result.schema]:
               the keys of an object are distinct, each assignment adds a
               property *)
            let normalizedProps :=
              omap (λ '(key, result), (λ n, (key, n)) <$> schema result)
                results in
            let unsupportedProps :=
              concat (map (λ '(_, result), unsupportedPaths result) results) in
            let n := set_properties (Some normalizedProps) normalized1 in
            match s_additionalProperties s with
            | Some (inr true) => (n, unsupportedProps ++ [pathLabel path])
            | Some (inr false) =>
                (set_additionalProperties (Some (inr false)) n,
                 unsupportedProps)
            | Some (inl extra) =>
                let result := normalizeSchemaNode extra (path ++ [Key "*"]) in
                (set_additionalProperties
                   (Some (inl (default extra (schema result)))) n,
                 unsupportedProps
                   ++ match unsupportedPaths result with
                      | [] => []
                      | _ :: _ => [pathLabel path]
                      end)
            | None => (n, unsupportedProps)
            end
        | KArray =>
            (* [itemSchema], with [normalizeSchemaNode(itemSchema, ...)] *)
            let itemResult :=
              match s_items s with
              | Some (inl item) =>
                  Some (item, normalizeSchemaNode item (path ++ [Key "*"]))
              | Some (inr many) =>
                  head (map (λ item,
                               (item,
                                normalizeSchemaNode item (path ++ [Key "*"])))
                          many)
              | None => None
              end in
            match itemResult with
            | None => (normalized1, [pathLabel path])
            | Some (item, result) =>
                (set_items (Some (inl (default item (schema result))))
                   normalized1,
                 match unsupportedPaths result with
                 | [] => []
                 | _ :: _ => [pathLabel path]
                 end)
            end
        | KPrimitive => (normalized1, [])
        | KOther =>
            (normalized1,
             match s_enum normalized1 with
             | Some _ => []
             | None => [pathLabel path]
             end)
        end in
      mkAnalysis (Some normalized2)
        (dedupe String.eqb (unsupported1 ++ unsupported2))
  end.

(** [analyzeConfigSchema(raw)].  [None] is a [raw] that is not an object
    ([!raw || typeof raw !== "object"]). *)
Definition analyzeConfigSchema (raw : option JsonSchema)
  : ConfigSchemaAnalysis :=
  match raw with
  | None => mkAnalysis None ["<root>"]
  | Some s => normalizeSchemaNode s []
  end.

(** ** Config state: host, forms and state *)

Definition isNumber (v : value) : bool :=
  match v with VNum _ => true | _ => false end.

(** [v === "text"] *)
Definition is_text (text : string) (v : value) : bool :=
  match v with VStr s => String.eqb s text | _ => false end.

(** [base[name]] for a [base] that is neither null nor undefined.  The names
    read by the controller are identifiers of the configuration (and [*]),
    never [length] or an index: on a string, a number or a boolean they find
    nothing. *)
Definition readField (base : value) (name : string) : value :=
  match base with
  | VObj _ | VArr _ _ => readSlot base (Key name)
  | _ => VUndefined
  end.

(** The property reads on one base: a TypeError, and no result, when the base
    is null or undefined. *)
Definition fields_of (base : value) : option (string → value) :=
  if nullish base then None else Some (readField base).

(** [v && typeof v === "object" ? v : {}] *)
Definition objectOrEmpty (v : value) : value :=
  if truthy v && isObject v then v else emptyObject.

(** [typeof v === "string" ? v : ""] *)
Definition stringOr (fallback : string) (v : value) : string :=
  match v with VStr s => s | _ => fallback end.

(** [typeof v === "boolean" ? v : fallback] *)
Definition booleanOr (fallback : bool) (v : value) : bool :=
  match v with VBool b => b | _ => fallback end.

(** The string of one line feed. *)
Definition newline : string := String "010"%char EmptyString.

(** [xs.join(", ")] *)
Fixpoint join_comma (xs : list string) : string :=
  match xs with
  | [] => ""
  | [x] => x
  | x :: rest => x +:+ ", " +:+ join_comma rest
  end.

Record SlackActionForm : Type := {
  act_reactions : bool;
  act_messages : bool;
  act_pins : bool;
  act_memberInfo : bool;
  act_emojiList : bool
}.

Record DiscordActionForm : Type := {
  dact_reactions : bool;
  dact_stickers : bool;
  dact_polls : bool;
  dact_permissions : bool;
  dact_messages : bool;
  dact_threads : bool;
  dact_pins : bool;
  dact_search : bool;
  dact_memberInfo : bool;
  dact_roleInfo : bool;
  dact_channelInfo : bool;
  dact_voiceStatus : bool;
  dact_events : bool;
  dact_roles : bool;
  dact_moderation : bool
}.

(** What the controller takes from its host and from [ui-types]: the
    built-ins [String(v)], [s.trim()], [s.trimEnd()] and
    [JSON.stringify(v, null, 2)], the text [String(e)] of the TypeError [e]
    of a property read on null or undefined, and the constants
    [defaultSlackActions] and [defaultDiscordActions]. *)
Class Host : Type := {
  js_String : value → string;
  js_trim : string → string;
  js_trimEnd : string → string;
  JSON_stringify : value → string;
  js_TypeError : string;
  defaultSlackActions : SlackActionForm;
  defaultDiscordActions : DiscordActionForm
}.

Record TelegramForm : Type := {
  tg_token : string;
  tg_requireMention : bool;
  tg_allowFrom : string;
  tg_proxy : string;
  tg_webhookUrl : string;
  tg_webhookSecret : string;
  tg_webhookPath : string
}.

Record DiscordGuildChannelForm : Type := {
  dgc_key : string;
  dgc_allow : bool;
  dgc_requireMention : bool
}.

Record DiscordGuildForm : Type := {
  dg_key : string;
  dg_slug : string;
  dg_requireMention : bool;
  dg_reactionNotifications : string;
  dg_users : string;
  dg_channels : list DiscordGuildChannelForm
}.

Record DiscordForm : Type := {
  dc_enabled : bool;
  dc_token : string;
  dc_dmEnabled : bool;
  dc_allowFrom : string;
  dc_groupEnabled : bool;
  dc_groupChannels : string;
  dc_mediaMaxMb : string;
  dc_historyLimit : string;
  dc_textChunkLimit : string;
  dc_replyToMode : string;
  dc_guilds : list DiscordGuildForm;
  dc_actions : DiscordActionForm;
  dc_slashEnabled : bool;
  dc_slashName : string;
  dc_slashSessionPrefix : string;
  dc_slashEphemeral : bool
}.

Record SlackChannelForm : Type := {
  sc_key : string;
  sc_allow : bool;
  sc_requireMention : bool
}.

Record SlackForm : Type := {
  sl_enabled : bool;
  sl_botToken : string;
  sl_appToken : string;
  sl_dmEnabled : bool;
  sl_allowFrom : string;
  sl_groupEnabled : bool;
  sl_groupChannels : string;
  sl_mediaMaxMb : string;
  sl_textChunkLimit : string;
  sl_reactionNotifications : string;
  sl_reactionAllowlist : string;
  sl_slashEnabled : bool;
  sl_slashName : string;
  sl_slashSessionPrefix : string;
  sl_slashEphemeral : bool;
  sl_actions : SlackActionForm;
  sl_channels : list SlackChannelForm
}.

Record SignalForm : Type := {
  sg_enabled : bool;
  sg_account : string;
  sg_httpUrl : string;
  sg_httpHost : string;
  sg_httpPort : string;
  sg_cliPath : string;
  sg_autoStart : bool;
  sg_receiveMode : string;
  sg_ignoreAttachments : bool;
  sg_ignoreStories : bool;
  sg_sendReadReceipts : bool;
  sg_allowFrom : string;
  sg_mediaMaxMb : string
}.

Record IMessageForm : Type := {
  im_enabled : bool;
  im_cliPath : string;
  im_dbPath : string;
  im_service : string;
  im_region : string;
  im_allowFrom : string;
  im_includeAttachments : bool;
  im_mediaMaxMb : string
}.

(** [ConfigSnapshot]: the fields that the controller reads, as they arrive
    ([VUndefined] for a field that is absent). *)
Record ConfigSnapshot : Type := {
  snap_config : value;
  snap_raw : value;
  snap_valid : value;
  snap_issues : value
}.

(** [ConfigSchemaResponse] *)
Record ConfigSchemaResponse : Type := {
  res_schema : value;
  res_uiHints : value;
  res_version : value
}.

(** The gateway client is a handle; what it answers is up to the gateway. *)
Inductive GatewayBrowserClient : Type := gatewayClient.

Inductive FormMode : Type := FormView | RawView.

Record ConfigState : Type := mkConfigState {
  client : option GatewayBrowserClient;
  connected : bool;
  configLoading : bool;
  configRaw : string;
  configValid : option bool;
  configIssues : value;
  configSaving : bool;
  configSnapshot : option ConfigSnapshot;
  configSchema : value;
  configSchemaVersion : value;
  configSchemaLoading : bool;
  configUiHints : value;
  configForm : value;
  configFormDirty : bool;
  configFormMode : FormMode;
  lastError : option string;
  telegramForm : TelegramForm;
  discordForm : DiscordForm;
  slackForm : SlackForm;
  signalForm : SignalForm;
  imessageForm : IMessageForm;
  telegramConfigStatus : option string;
  discordConfigStatus : option string;
  slackConfigStatus : option string;
  signalConfigStatus : option string;
  imessageConfigStatus : option string
}.

(** Assignments to single fields of the state. *)
Definition set_client (x : option GatewayBrowserClient) (st : ConfigState)
  : ConfigState :=
  mkConfigState x (connected st) (configLoading st) (configRaw st)
    (configValid st) (configIssues st) (configSaving st) (configSnapshot st)
    (configSchema st) (configSchemaVersion st) (configSchemaLoading st)
    (configUiHints st) (configForm st) (configFormDirty st)
    (configFormMode st) (lastError st) (telegramForm st) (discordForm st)
    (slackForm st) (signalForm st) (imessageForm st) (telegramConfigStatus st)
    (discordConfigStatus st) (slackConfigStatus st) (signalConfigStatus st)
    (imessageConfigStatus st).

Definition set_connected (x : bool) (st : ConfigState)
  : ConfigState :=
  mkConfigState (client st) x (configLoading st) (configRaw st)
    (configValid st) (configIssues st) (configSaving st) (configSnapshot st)
    (configSchema st) (configSchemaVersion st) (configSchemaLoading st)
    (configUiHints st) (configForm st) (configFormDirty st)
    (configFormMode st) (lastError st) (telegramForm st) (discordForm st)
    (slackForm st) (signalForm st) (imessageForm st) (telegramConfigStatus st)
    (discordConfigStatus st) (slackConfigStatus st) (signalConfigStatus st)
    (imessageConfigStatus st).

Definition set_configLoading (x : bool) (st : ConfigState)
  : ConfigState :=
  mkConfigState (client st) (connected st) x (configRaw st) (configValid st)
    (configIssues st) (configSaving st) (configSnapshot st) (configSchema st)
    (configSchemaVersion st) (configSchemaLoading st) (configUiHints st)
    (configForm st) (configFormDirty st) (configFormMode st) (lastError st)
    (telegramForm st) (discordForm st) (slackForm st) (signalForm st)
    (imessageForm st) (telegramConfigStatus st) (discordConfigStatus st)
    (slackConfigStatus st) (signalConfigStatus st) (imessageConfigStatus st).

Definition set_configSaving (x : bool) (st : ConfigState)
  : ConfigState :=
  mkConfigState (client st) (connected st) (configLoading st) (configRaw st)
    (configValid st) (configIssues st) x (configSnapshot st) (configSchema st)
    (configSchemaVersion st) (configSchemaLoading st) (configUiHints st)
    (configForm st) (configFormDirty st) (configFormMode st) (lastError st)
    (telegramForm st) (discordForm st) (slackForm st) (signalForm st)
    (imessageForm st) (telegramConfigStatus st) (discordConfigStatus st)
    (slackConfigStatus st) (signalConfigStatus st) (imessageConfigStatus st).

Definition set_configSchemaLoading (x : bool) (st : ConfigState)
  : ConfigState :=
  mkConfigState (client st) (connected st) (configLoading st) (configRaw st)
    (configValid st) (configIssues st) (configSaving st) (configSnapshot st)
    (configSchema st) (configSchemaVersion st) x (configUiHints st)
    (configForm st) (configFormDirty st) (configFormMode st) (lastError st)
    (telegramForm st) (discordForm st) (slackForm st) (signalForm st)
    (imessageForm st) (telegramConfigStatus st) (discordConfigStatus st)
    (slackConfigStatus st) (signalConfigStatus st) (imessageConfigStatus st).

Definition set_lastError (x : option string) (st : ConfigState)
  : ConfigState :=
  mkConfigState (client st) (connected st) (configLoading st) (configRaw st)
    (configValid st) (configIssues st) (configSaving st) (configSnapshot st)
    (configSchema st) (configSchemaVersion st) (configSchemaLoading st)
    (configUiHints st) (configForm st) (configFormDirty st)
    (configFormMode st) x (telegramForm st) (discordForm st) (slackForm st)
    (signalForm st) (imessageForm st) (telegramConfigStatus st)
    (discordConfigStatus st) (slackConfigStatus st) (signalConfigStatus st)
    (imessageConfigStatus st).

Definition set_configFormDirty (x : bool) (st : ConfigState)
  : ConfigState :=
  mkConfigState (client st) (connected st) (configLoading st) (configRaw st)
    (configValid st) (configIssues st) (configSaving st) (configSnapshot st)
    (configSchema st) (configSchemaVersion st) (configSchemaLoading st)
    (configUiHints st) (configForm st) x (configFormMode st) (lastError st)
    (telegramForm st) (discordForm st) (slackForm st) (signalForm st)
    (imessageForm st) (telegramConfigStatus st) (discordConfigStatus st)
    (slackConfigStatus st) (signalConfigStatus st) (imessageConfigStatus st).

Definition set_configForm (x : value) (st : ConfigState)
  : ConfigState :=
  mkConfigState (client st) (connected st) (configLoading st) (configRaw st)
    (configValid st) (configIssues st) (configSaving st) (configSnapshot st)
    (configSchema st) (configSchemaVersion st) (configSchemaLoading st)
    (configUiHints st) x (configFormDirty st) (configFormMode st)
    (lastError st) (telegramForm st) (discordForm st) (slackForm st)
    (signalForm st) (imessageForm st) (telegramConfigStatus st)
    (discordConfigStatus st) (slackConfigStatus st) (signalConfigStatus st)
    (imessageConfigStatus st).

Definition set_configFormMode (x : FormMode) (st : ConfigState)
  : ConfigState :=
  mkConfigState (client st) (connected st) (configLoading st) (configRaw st)
    (configValid st) (configIssues st) (configSaving st) (configSnapshot st)
    (configSchema st) (configSchemaVersion st) (configSchemaLoading st)
    (configUiHints st) (configForm st) (configFormDirty st) x (lastError st)
    (telegramForm st) (discordForm st) (slackForm st) (signalForm st)
    (imessageForm st) (telegramConfigStatus st) (discordConfigStatus st)
    (slackConfigStatus st) (signalConfigStatus st) (imessageConfigStatus st).

Definition set_configSnapshot (x : option ConfigSnapshot) (st : ConfigState)
  : ConfigState :=
  mkConfigState (client st) (connected st) (configLoading st) (configRaw st)
    (configValid st) (configIssues st) (configSaving st) x (configSchema st)
    (configSchemaVersion st) (configSchemaLoading st) (configUiHints st)
    (configForm st) (configFormDirty st) (configFormMode st) (lastError st)
    (telegramForm st) (discordForm st) (slackForm st) (signalForm st)
    (imessageForm st) (telegramConfigStatus st) (discordConfigStatus st)
    (slackConfigStatus st) (signalConfigStatus st) (imessageConfigStatus st).

Definition set_configSchema (x : value) (st : ConfigState)
  : ConfigState :=
  mkConfigState (client st) (connected st) (configLoading st) (configRaw st)
    (configValid st) (configIssues st) (configSaving st) (configSnapshot st) x
    (configSchemaVersion st) (configSchemaLoading st) (configUiHints st)
    (configForm st) (configFormDirty st) (configFormMode st) (lastError st)
    (telegramForm st) (discordForm st) (slackForm st) (signalForm st)
    (imessageForm st) (telegramConfigStatus st) (discordConfigStatus st)
    (slackConfigStatus st) (signalConfigStatus st) (imessageConfigStatus st).

Definition set_configUiHints (x : value) (st : ConfigState)
  : ConfigState :=
  mkConfigState (client st) (connected st) (configLoading st) (configRaw st)
    (configValid st) (configIssues st) (configSaving st) (configSnapshot st)
    (configSchema st) (configSchemaVersion st) (configSchemaLoading st) x
    (configForm st) (configFormDirty st) (configFormMode st) (lastError st)
    (telegramForm st) (discordForm st) (slackForm st) (signalForm st)
    (imessageForm st) (telegramConfigStatus st) (discordConfigStatus st)
    (slackConfigStatus st) (signalConfigStatus st) (imessageConfigStatus st).

Definition set_configSchemaVersion (x : value) (st : ConfigState)
  : ConfigState :=
  mkConfigState (client st) (connected st) (configLoading st) (configRaw st)
    (configValid st) (configIssues st) (configSaving st) (configSnapshot st)
    (configSchema st) x (configSchemaLoading st) (configUiHints st)
    (configForm st) (configFormDirty st) (configFormMode st) (lastError st)
    (telegramForm st) (discordForm st) (slackForm st) (signalForm st)
    (imessageForm st) (telegramConfigStatus st) (discordConfigStatus st)
    (slackConfigStatus st) (signalConfigStatus st) (imessageConfigStatus st).

(** ** Config state: requests in flight *)

(** How a request to the gateway settles: with a value, or with an error,
    given here as [String(err)]. *)
Inductive Response : Type :=
| Resolved (v : value)
| Rejected (err : string).

(** An [async] function runs until its first [await] of a request, which
    it sends at once; it resumes, when the request settles, on the state as
    it is by then.  A [Task] is what is left of a call: nothing, or a
    request in flight with what follows it. *)
#[warning="-register-all"]
Inductive Task : Type :=
| Done
| Await (method : string) (params : value)
    (resume : Response → ConfigState → ConfigState * Task).

(** [await] of the call of another [async] function of this module: the
    caller goes on when the callee is done. *)
Fixpoint andThen (callee : Task) (st : ConfigState)
    (rest : ConfigState → ConfigState * Task) : ConfigState * Task :=
  match callee with
  | Done => rest st
  | Await method params resume =>
      (st,
       Await method params
         (λ response st',
            let '(st'', callee') := resume response st' in
            andThen callee' st'' rest))
  end.

(** ** Config state: snapshot application *)

Section Controller.
Context `{Host}.

(** [toList(value)] *)
Definition toList (v : value) : string :=
  match v with
  | VArr es _ =>
      join_comma
        (List.filter (λ s, negb (String.eqb s ""))
           (map (λ x, js_trim (js_String (coalesce x (VStr "")))) es))
  | _ => ""
  end.

(** [typeof v === "number" ? String(v) : ""] *)
Definition numberText (v : value) : string :=
  if isNumber v then js_String v else "".

(** [Object.entries(v)] for an object or an array.  A snapshot arrives as
    JSON: its arrays have no holes. *)
Definition objectEntries (v : value) : list (string * value) :=
  match v with
  | VObj fs => fs
  | VArr es ps => imap (λ i e, (pretty i, e)) es ++ ps
  | _ => []
  end.

Definition telegramProjection (section : value) : option TelegramForm :=
  telegram ← fields_of section;
  telegramGroups ← fields_of (objectOrEmpty (telegram "groups"));
  telegramDefaultGroup ← fields_of (objectOrEmpty (telegramGroups "*"));
  let allowFrom :=
    if isArray (telegram "allowFrom") then toList (telegram "allowFrom")
    else stringOr "" (telegram "allowFrom") in
  Some {| tg_token := stringOr "" (telegram "botToken");
          tg_requireMention :=
            booleanOr true (telegramDefaultGroup "requireMention");
          tg_allowFrom := allowFrom;
          tg_proxy := stringOr "" (telegram "proxy");
          tg_webhookUrl := stringOr "" (telegram "webhookUrl");
          tg_webhookSecret := stringOr "" (telegram "webhookSecret");
          tg_webhookPath := stringOr "" (telegram "webhookPath") |}.

Definition discordGuildChannel (channelKey : string) (channelValue : value)
  : option DiscordGuildChannelForm :=
  channel ← fields_of (objectOrEmpty channelValue);
  Some {| dgc_key := channelKey;
          dgc_allow := booleanOr true (channel "allow");
          dgc_requireMention := booleanOr false (channel "requireMention") |}.

Definition discordGuild (key : string) (v : value)
  : option DiscordGuildForm :=
  entry ← fields_of (objectOrEmpty v);
  let channelsRaw := objectOrEmpty (entry "channels") in
  channels ← mapM (λ '(channelKey, channelValue),
                     discordGuildChannel channelKey channelValue)
               (objectEntries channelsRaw);
  let notifications := entry "reactionNotifications" in
  Some {| dg_key := key;
          dg_slug := stringOr "" (entry "slug");
          dg_requireMention := booleanOr false (entry "requireMention");
          dg_reactionNotifications :=
            if is_text "off" notifications || is_text "all" notifications
               || is_text "own" notifications
               || is_text "allowlist" notifications
            then stringOr "own" notifications else "own";
          dg_users := toList (entry "users");
          dg_channels := channels |}.

Definition discordProjection (section : value) : option DiscordForm :=
  discord ← fields_of section;
  discordDm ← fields_of (coalesce (discord "dm") emptyObject);
  slash ← fields_of (coalesce (discord "slashCommand") emptyObject);
  discordActions ← fields_of (coalesce (discord "actions") emptyObject);
  let discordGuilds := discord "guilds" in
  let readAction (key : string) (fallback : DiscordActionForm → bool) :=
    booleanOr (fallback defaultDiscordActions) (discordActions key) in
  guilds ←
    (if isArray discordGuilds then Some []
     else if isObject discordGuilds && truthy discordGuilds
          then mapM (λ '(key, v), discordGuild key v)
                 (objectEntries discordGuilds)
          else Some []);
  Some {| dc_enabled := booleanOr true (discord "enabled");
          dc_token := stringOr "" (discord "token");
          dc_dmEnabled := booleanOr true (discordDm "enabled");
          dc_allowFrom := toList (discordDm "allowFrom");
          dc_groupEnabled := booleanOr false (discordDm "groupEnabled");
          dc_groupChannels := toList (discordDm "groupChannels");
          dc_mediaMaxMb := numberText (discord "mediaMaxMb");
          dc_historyLimit := numberText (discord "historyLimit");
          dc_textChunkLimit := numberText (discord "textChunkLimit");
          dc_replyToMode :=
            if is_text "first" (discord "replyToMode")
               || is_text "all" (discord "replyToMode")
            then stringOr "off" (discord "replyToMode") else "off";
          dc_guilds := guilds;
          dc_actions :=
            {| dact_reactions := readAction "reactions" dact_reactions;
               dact_stickers := readAction "stickers" dact_stickers;
               dact_polls := readAction "polls" dact_polls;
               dact_permissions := readAction "permissions" dact_permissions;
               dact_messages := readAction "messages" dact_messages;
               dact_threads := readAction "threads" dact_threads;
               dact_pins := readAction "pins" dact_pins;
               dact_search := readAction "search" dact_search;
               dact_memberInfo := readAction "memberInfo" dact_memberInfo;
               dact_roleInfo := readAction "roleInfo" dact_roleInfo;
               dact_channelInfo := readAction "channelInfo" dact_channelInfo;
               dact_voiceStatus := readAction "voiceStatus" dact_voiceStatus;
               dact_events := readAction "events" dact_events;
               dact_roles := readAction "roles" dact_roles;
               dact_moderation := readAction "moderation" dact_moderation |};
          dc_slashEnabled := booleanOr false (slash "enabled");
          dc_slashName := stringOr "" (slash "name");
          dc_slashSessionPrefix := stringOr "" (slash "sessionPrefix");
          dc_slashEphemeral := booleanOr true (slash "ephemeral") |}.

Definition slackChannel (key : string) (v : value)
  : option SlackChannelForm :=
  entry ← fields_of (objectOrEmpty v);
  Some {| sc_key := key;
          sc_allow := booleanOr true (entry "allow");
          sc_requireMention := booleanOr false (entry "requireMention") |}.

Definition slackProjection (section : value) : option SlackForm :=
  slack ← fields_of section;
  slackDm ← fields_of (coalesce (slack "dm") emptyObject);
  let slackChannels := slack "channels" in
  slackSlash ← fields_of (coalesce (slack "slashCommand") emptyObject);
  slackActions ← fields_of (coalesce (slack "actions") emptyObject);
  let notifications := slack "reactionNotifications" in
  channels ←
    (if isArray slackChannels then Some []
     else if isObject slackChannels && truthy slackChannels
          then mapM (λ '(key, v), slackChannel key v)
                 (objectEntries slackChannels)
          else Some []);
  Some {| sl_enabled := booleanOr true (slack "enabled");
          sl_botToken := stringOr "" (slack "botToken");
          sl_appToken := stringOr "" (slack "appToken");
          sl_dmEnabled := booleanOr true (slackDm "enabled");
          sl_allowFrom := toList (slackDm "allowFrom");
          sl_groupEnabled := booleanOr false (slackDm "groupEnabled");
          sl_groupChannels := toList (slackDm "groupChannels");
          sl_mediaMaxMb := numberText (slack "mediaMaxMb");
          sl_textChunkLimit := numberText (slack "textChunkLimit");
          sl_reactionNotifications :=
            if is_text "off" notifications || is_text "all" notifications
               || is_text "allowlist" notifications
            then stringOr "own" notifications else "own";
          sl_reactionAllowlist := toList (slack "reactionAllowlist");
          sl_slashEnabled := booleanOr false (slackSlash "enabled");
          sl_slashName := stringOr "" (slackSlash "name");
          sl_slashSessionPrefix := stringOr "" (slackSlash "sessionPrefix");
          sl_slashEphemeral := booleanOr true (slackSlash "ephemeral");
          sl_actions :=
            {| act_reactions :=
                 booleanOr (act_reactions defaultSlackActions)
                   (slackActions "reactions");
               act_messages :=
                 booleanOr (act_messages defaultSlackActions)
                   (slackActions "messages");
               act_pins :=
                 booleanOr (act_pins defaultSlackActions)
                   (slackActions "pins");
               act_memberInfo :=
                 booleanOr (act_memberInfo defaultSlackActions)
                   (slackActions "memberInfo");
               act_emojiList :=
                 booleanOr (act_emojiList defaultSlackActions)
                   (slackActions "emojiList") |};
          sl_channels := channels |}.

Definition signalProjection (section : value) : option SignalForm :=
  signal ← fields_of section;
  Some {| sg_enabled := booleanOr true (signal "enabled");
          sg_account := stringOr "" (signal "account");
          sg_httpUrl := stringOr "" (signal "httpUrl");
          sg_httpHost := stringOr "" (signal "httpHost");
          sg_httpPort := numberText (signal "httpPort");
          sg_cliPath := stringOr "" (signal "cliPath");
          sg_autoStart := booleanOr true (signal "autoStart");
          sg_receiveMode :=
            if is_text "on-start" (signal "receiveMode")
               || is_text "manual" (signal "receiveMode")
            then stringOr "" (signal "receiveMode") else "";
          sg_ignoreAttachments :=
            booleanOr false (signal "ignoreAttachments");
          sg_ignoreStories := booleanOr false (signal "ignoreStories");
          sg_sendReadReceipts := booleanOr false (signal "sendReadReceipts");
          sg_allowFrom := toList (signal "allowFrom");
          sg_mediaMaxMb := numberText (signal "mediaMaxMb") |}.

Definition imessageProjection (section : value) : option IMessageForm :=
  imessage ← fields_of section;
  Some {| im_enabled := booleanOr true (imessage "enabled");
          im_cliPath := stringOr "" (imessage "cliPath");
          im_dbPath := stringOr "" (imessage "dbPath");
          im_service :=
            if is_text "imessage" (imessage "service")
               || is_text "sms" (imessage "service")
               || is_text "auto" (imessage "service")
            then stringOr "auto" (imessage "service") else "auto";
          im_region := stringOr "" (imessage "region");
          im_allowFrom := toList (imessage "allowFrom");
          im_includeAttachments :=
            booleanOr false (imessage "includeAttachments");
          im_mediaMaxMb := numberText (imessage "mediaMaxMb") |}.

(** [cloneConfigObject(value)]: [structuredClone], a deep copy.  Trees are
    terms, which nothing can mutate: the copy of a tree is the tree. *)
Definition cloneConfigObject (v : value) : value := v.

(** [applyConfigSnapshot(state, snapshot)]: the state after the call. *)
Definition applyConfigSnapshot (st : ConfigState) (snapshot : ConfigSnapshot)
  : option ConfigState :=
  let raw :=
    match snap_raw snapshot with
    | VStr text => text
    | _ =>
        if truthy (snap_config snapshot) && isObject (snap_config snapshot)
        then js_trimEnd (JSON_stringify (snap_config snapshot)) +:+ newline
        else configRaw st
    end in
  let valid :=
    match snap_valid snapshot with VBool b => Some b | _ => None end in
  let issues :=
    if isArray (snap_issues snapshot) then snap_issues snapshot
    else emptyArray in
  config ← fields_of (coalesce (snap_config snapshot) emptyObject);
  let telegram := coalesce (config "telegram") emptyObject in
  let discord := coalesce (config "discord") emptyObject in
  let slack := coalesce (config "slack") emptyObject in
  let signal := coalesce (config "signal") emptyObject in
  let imessage := coalesce (config "imessage") emptyObject in
  telegramForm' ← telegramProjection telegram;
  discordForm' ← discordProjection discord;
  slackForm' ← slackProjection slack;
  signalForm' ← signalProjection signal;
  imessageForm' ← imessageProjection imessage;
  let configInvalid :=
    match snap_valid snapshot with
    | VBool false => Some "Config invalid."
    | _ => None
    end in
  Some (mkConfigState (client st) (connected st) (configLoading st) raw
          valid issues (configSaving st) (Some snapshot) (configSchema st)
          (configSchemaVersion st) (configSchemaLoading st)
          (configUiHints st)
          (if configFormDirty st then configForm st
           else cloneConfigObject
                  (coalesce (snap_config snapshot) emptyObject))
          (configFormDirty st) (configFormMode st) (lastError st)
          telegramForm' discordForm' slackForm' signalForm' imessageForm'
          configInvalid configInvalid configInvalid configInvalid
          configInvalid).

(** [applyConfigSchema(state, res)] *)
Definition applyConfigSchema (st : ConfigState) (res : ConfigSchemaResponse)
  : ConfigState :=
  set_configSchemaVersion (coalesce (res_version res) VNull)
    (set_configUiHints (coalesce (res_uiHints res) emptyObject)
       (set_configSchema (coalesce (res_schema res) VNull) st)).

(** [state.configForm ?? state.configSnapshot?.config ?? {}] *)
Definition formSeed (st : ConfigState) : value :=
  coalesce
    (coalesce (configForm st)
       match configSnapshot st with
       | Some snapshot => snap_config snapshot
       | None => VUndefined
       end)
    emptyObject.

(** [updateConfigFormValue(state, path, value)] *)
Definition updateConfigFormValue (st : ConfigState) (path : list segment)
    (v : value) : option ConfigState :=
  base ← setPathValue (cloneConfigObject (formSeed st)) path v;
  Some (set_configFormDirty true (set_configForm base st)).

(** [removeConfigFormValue(state, path)] *)
Definition removeConfigFormValue (st : ConfigState) (path : list segment)
  : option ConfigState :=
  base ← removePathValue (cloneConfigObject (formSeed st)) path;
  Some (set_configFormDirty true (set_configForm base st)).

(** *** Requests *)

(** The snapshot in the answer to [config.get]; reading a field of an
    answer that is null or undefined is a TypeError. *)
Definition snapshot_of (res : value) : option ConfigSnapshot :=
  fields ← fields_of res;
  Some {| snap_config := fields "config";
          snap_raw := fields "raw";
          snap_valid := fields "valid";
          snap_issues := fields "issues" |}.

Definition schemaResponse_of (res : value) : option ConfigSchemaResponse :=
  fields ← fields_of res;
  Some {| res_schema := fields "schema";
          res_uiHints := fields "uiHints";
          res_version := fields "version" |}.

(** [loadConfig(state)] *)
Definition loadConfig (st : ConfigState) : ConfigState * Task :=
  match client st with
  | Some _ =>
      if connected st then
        (set_lastError None (set_configLoading true st),
         Await "config.get" emptyObject
           (λ response st',
              (set_configLoading false
                 match response with
                 | Resolved res =>
                     match snapshot_of res ≫= applyConfigSnapshot st' with
                     | Some st'' => st''
                     | None =>
                         (* a TypeError, caught *)
                         set_lastError (Some js_TypeError)
                           (set_configSnapshot (snapshot_of res) st')
                     end
                 | Rejected err => set_lastError (Some err) st'
                 end,
               Done)))
      else (st, Done)
  | None => (st, Done)
  end.

(** [loadConfigSchema(state)] *)
Definition loadConfigSchema (st : ConfigState) : ConfigState * Task :=
  match client st with
  | Some _ =>
      if connected st then
        if configSchemaLoading st then (st, Done)
        else
          (set_configSchemaLoading true st,
           Await "config.schema" emptyObject
             (λ response st',
                (set_configSchemaLoading false
                   match response with
                   | Resolved res =>
                       match schemaResponse_of res with
                       | Some res' => applyConfigSchema st' res'
                       | None => set_lastError (Some js_TypeError) st'
                       end
                   | Rejected err => set_lastError (Some err) st'
                   end,
                 Done)))
      else (st, Done)
  | None => (st, Done)
  end.

(** The text that [saveConfig] sends. *)
Definition saveText (st : ConfigState) : string :=
  match configFormMode st with
  | FormView =>
      if truthy (configForm st)
      then js_trimEnd (JSON_stringify (configForm st)) +:+ newline
      else configRaw st
  | RawView => configRaw st
  end.

(** [saveConfig(state)] *)
Definition saveConfig (st : ConfigState) : ConfigState * Task :=
  match client st with
  | Some _ =>
      if connected st then
        let st1 := set_lastError None (set_configSaving true st) in
        (st1,
         Await "config.set" (VObj [("raw", VStr (saveText st1))])
           (λ response st',
              match response with
              | Resolved _ =>
                  let '(st'', reload) :=
                    loadConfig (set_configFormDirty false st') in
                  andThen reload st''
                    (λ st3, (set_configSaving false st3, Done))
              | Rejected err =>
                  (set_configSaving false (set_lastError (Some err) st'),
                   Done)
              end))
      else (st, Done)
  | None => (st, Done)
  end.

(** The number of requests that a call has sent when it returns to its
    caller. *)
Definition requestsSent (call : ConfigState * Task) : nat :=
  match call.2 with
  | Done => 0
  | Await _ _ _ => 1
  end.
(** *** The forms of a state that has no configuration yet *)

(** [baseTelegramForm], [baseDiscordForm], [baseSlackForm], [baseSignalForm],
    [baseIMessageForm] and [createState()] of the tests of the controller. *)
Definition baseTelegramForm : TelegramForm :=
  {| tg_token := ""; tg_requireMention := true; tg_allowFrom := "";
     tg_proxy := ""; tg_webhookUrl := ""; tg_webhookSecret := "";
     tg_webhookPath := "" |}.

Definition baseDiscordForm : DiscordForm :=
  {| dc_enabled := true; dc_token := ""; dc_dmEnabled := true;
     dc_allowFrom := ""; dc_groupEnabled := false; dc_groupChannels := "";
     dc_mediaMaxMb := ""; dc_historyLimit := ""; dc_textChunkLimit := "";
     dc_replyToMode := "off"; dc_guilds := [];
     dc_actions := defaultDiscordActions; dc_slashEnabled := false;
     dc_slashName := ""; dc_slashSessionPrefix := "";
     dc_slashEphemeral := true |}.

Definition baseSlackForm : SlackForm :=
  {| sl_enabled := true; sl_botToken := ""; sl_appToken := "";
     sl_dmEnabled := true; sl_allowFrom := ""; sl_groupEnabled := false;
     sl_groupChannels := ""; sl_mediaMaxMb := ""; sl_textChunkLimit := "";
     sl_reactionNotifications := "own"; sl_reactionAllowlist := "";
     sl_slashEnabled := false; sl_slashName := "";
     sl_slashSessionPrefix := ""; sl_slashEphemeral := true;
     sl_actions := defaultSlackActions; sl_channels := [] |}.

Definition baseSignalForm : SignalForm :=
  {| sg_enabled := true; sg_account := ""; sg_httpUrl := "";
     sg_httpHost := ""; sg_httpPort := ""; sg_cliPath := "";
     sg_autoStart := true; sg_receiveMode := "";
     sg_ignoreAttachments := false; sg_ignoreStories := false;
     sg_sendReadReceipts := false; sg_allowFrom := ""; sg_mediaMaxMb := "" |}.

Definition baseIMessageForm : IMessageForm :=
  {| im_enabled := true; im_cliPath := ""; im_dbPath := "";
     im_service := "auto"; im_region := ""; im_allowFrom := "";
     im_includeAttachments := false; im_mediaMaxMb := "" |}.

Definition createState : ConfigState :=
  mkConfigState None false false "" None emptyArray false None VNull VNull
    false emptyObject VNull false FormView None baseTelegramForm
    baseDiscordForm baseSlackForm baseSignalForm baseIMessageForm None None
    None None None.

(** *** Vocabulary of the claims about the state *)



End Controller.

(** A host for the worked examples.  The examples do not depend on what its
    built-ins answer. *)
Definition exampleSlackActions : SlackActionForm :=
  {| act_reactions := true; act_messages := true; act_pins := true;
     act_memberInfo := true; act_emojiList := true |}.

Definition exampleDiscordActions : DiscordActionForm :=
  {| dact_reactions := true; dact_stickers := true; dact_polls := true;
     dact_permissions := true; dact_messages := true; dact_threads := true;
     dact_pins := true; dact_search := true; dact_memberInfo := true;
     dact_roleInfo := true; dact_channelInfo := true;
     dact_voiceStatus := true; dact_events := true; dact_roles := false;
     dact_moderation := false |}.

Definition exampleHost : Host :=
  {| js_String := λ v, match v with VStr text => text | _ => "value" end;
     js_trim := λ text, text;
     js_trimEnd := λ text, text;
     JSON_stringify := λ _, "{}";
     js_TypeError := "TypeError";
     defaultSlackActions := exampleSlackActions;
     defaultDiscordActions := exampleDiscordActions |}.

(** ** Vocabulary of the claim about normalising twice *)

(** The schemas right below a node. *)
Definition children (s : JsonSchema) : list JsonSchema :=
  match s_properties s with Some props => map snd props | None => [] end
  ++ match s_items s with
     | Some (inl item) => [item]
     | Some (inr many) => many
     | None => []
     end
  ++ match s_additionalProperties s with
     | Some (inl extra) => [extra]
     | _ => []
     end
  ++ default [] (s_anyOf s) ++ default [] (s_oneOf s)
  ++ default [] (s_allOf s).

(** [test] holds of a node and of every schema below it. *)
Fixpoint every_node (test : JsonSchema → bool) (s : JsonSchema) : bool :=
  test s
  && match s_properties s with
     | Some props => forallb (λ '(_, child), every_node test child) props
     | None => true
     end
  && match s_items s with
     | Some (inl item) => every_node test item
     | Some (inr many) => forallb (every_node test) many
     | None => true
     end
  && match s_additionalProperties s with
     | Some (inl extra) => every_node test extra
     | _ => true
     end
  && match s_anyOf s with
     | Some vs => forallb (every_node test) vs
     | None => true
     end
  && match s_oneOf s with
     | Some vs => forallb (every_node test) vs
     | None => true
     end
  && match s_allOf s with
     | Some vs => forallb (every_node test) vs
     | None => true
     end.


(** The unsupported paths of a node that is not a union, as
    [normalizeSchemaNode] gathers them: from the enum, then from the branch
    taken on [type]. *)
Definition enumUnsupported (s : JsonSchema) (path : list segment)
  : list string :=
  match s_enum s with
  | Some vs =>
      match (normalizeEnumValues vs).1 with
      | [] => [pathLabel path]
      | _ :: _ => []
      end
  | None => []
  end.

Definition itemSchema (s : JsonSchema) : option JsonSchema :=
  match s_items s with
  | Some (inl item) => Some item
  | Some (inr many) => head many
  | None => None
  end.

Definition kindUnsupported (s : JsonSchema) (path : list segment)
  : list string :=
  match node_kind_of (nodeType s) with
  | KObject =>
      concat (map (λ '(key, child),
                     unsupportedPaths
                       (normalizeSchemaNode child (path ++ [Key key])))
                (default [] (s_properties s)))
      ++ match s_additionalProperties s with
         | Some (inr true) => [pathLabel path]
         | Some (inl extra) =>
             match unsupportedPaths
                     (normalizeSchemaNode extra (path ++ [Key "*"]))
             with
             | [] => []
             | _ :: _ => [pathLabel path]
             end
         | _ => []
         end
  | KArray =>
      match itemSchema s with
      | None => [pathLabel path]
      | Some item =>
          match unsupportedPaths
                  (normalizeSchemaNode item (path ++ [Key "*"]))
          with
          | [] => []
          | _ :: _ => [pathLabel path]
          end
      end
  | KPrimitive => []
  | KOther =>
      match s_enum s with
      | Some _ => []
      | None => [pathLabel path]
      end
  end.

(** ** Vocabulary of the claims about unions *)

(** What one variant adds to [values], whether it goes to [nonLiteral], and
    whether it sets [nullable], read off the loop of [normalizeUnion]. *)
Definition variant_values (variant : JsonSchema) : list value :=
  match s_enum variant with
  | Some vs => (normalizeEnumValues vs).1
  | None =>
      match s_const variant with
      | Some c => if nullish c then [] else [c]
      | None => []
      end
  end.

Definition variant_nullable (variant : JsonSchema) : bool :=
  match s_enum variant with
  | Some vs => (normalizeEnumValues vs).2
  | None =>
      match s_const variant with
      | Some c => nullish c
      | None => is_type "null" (schemaType variant)
      end
  end.

(** A literal variant has an [enum] list or a [const]; its literals are the
    entries of the list, or the constant. *)
Definition is_literal (variant : JsonSchema) : bool :=
  match s_enum variant, s_const variant with
  | None, None => false
  | _, _ => true
  end.

Definition literals (variant : JsonSchema) : list value :=
  match s_enum variant with
  | Some vs => vs
  | None =>
      match s_const variant with
      | Some c => [c]
      | None => []
      end
  end.

(** A null variant is not a literal and has the type [null]. *)
Definition is_null_variant (variant : JsonSchema) : bool :=
  negb (is_literal variant) && is_type "null" (schemaType variant).

(** Every other variant is a non-literal sub-schema. *)
Definition is_nonLiteral (variant : JsonSchema) : bool :=
  negb (is_literal variant) && negb (is_type "null" (schemaType variant)).

(** The literals of all variants that are not null. *)
Definition union_literals (variants : list JsonSchema) : list value :=
  List.filter (λ x, negb (nullish x)) (flat_map literals variants).

(** No two entries are the same value. *)
Definition distinct_by {A : Type} (same : A → A → bool) (l : list A) : Prop :=
  ∀ i j x y, i < j → l !! i = Some x → l !! j = Some y → same x y = false.




(** ** Vocabulary of further properties of the path mutator *)


(** The value of the variable [current] of [removePathValue] when its loop
    ends; [None] when the loop returns early. *)
Fixpoint removeReached (current : value) (path : list segment)
  : option value :=
  match path with
  | [] => None
  | key :: rest =>
      match rest with
      | [] => Some current
      | _ :: _ =>
          if admits current key then
            let slot := readSlot current key in
            if nullish slot then None else removeReached slot rest
          else None
      end
  end.


(** ** Vocabulary of further properties of the config state *)

(** A call after its request has settled with [response], when nothing else
    touched the state in between: the state, and what is still pending. *)
Definition settle (call : ConfigState * Task) (response : Response)
  : ConfigState * Task :=
  match call.2 with
  | Done => call
  | Await _ _ resume => resume response call.1
  end.

(** The request that a call has in flight. *)
Definition pendingRequest (call : ConfigState * Task)
  : option (string * value) :=
  match call.2 with
  | Done => None
  | Await method params _ => Some (method, params)
  end.


(** ** Form view: default values and the handlers of lists and maps *)

(** [defaultValue(schema)]; no schema is [undefined]. *)
Definition defaultValue (schema : option JsonSchema) : value :=
  match schema with
  | None => VStr ""
  | Some s =>
      match s_default s with
      | Some VUndefined | None =>
          let type := schemaType s in
          if is_type "object" type then emptyObject
          else if is_type "array" type then emptyArray
          else if is_type "boolean" type then VBool false
          else if is_type "number" type || is_type "integer" type then VNum 0
          else VStr ""
      | Some d => d
      end
  end.

(** [Array.isArray(value) ? value : []]: the elements of [arr] in
    [renderNode]. *)
Definition arrayOf (v : value) : list value :=
  match v with VArr es _ => es | _ => [] end.

(** What the button Add of a list hands to [onPatch]:
    [[...arr, defaultValue(itemSchema)]] *)
Definition arrayAdd (s : JsonSchema) (v : value) : value :=
  VArr (arrayOf v ++ [defaultValue (itemSchema s)]) [].

(** What the button Remove of the entry [index] of a list hands to
    [onPatch]: [arr.slice()] after [splice(index, 1)]. *)
Definition arrayRemove (v : value) (index : nat) : value :=
  VArr (arr_splice1 (arrayOf v) index) [].

(** The names that an object literal inherits from [Object.prototype]. *)
Definition objectPrototypeNames : list string :=
  ["constructor"; "__defineGetter__"; "__defineSetter__"; "hasOwnProperty";
   "__lookupGetter__"; "__lookupSetter__"; "isPrototypeOf";
   "propertyIsEnumerable"; "toString"; "valueOf"; "__proto__";
   "toLocaleString"].

(** [key in next], for an object literal [next]: an own property, or an
    inherited one. *)
Definition hasProperty (next : list (string * value)) (key : string) : bool :=
  match obj_lookup next key with
  | Some _ => true
  | None => existsb (String.eqb key) objectPrototypeNames
  end.

(** [`new-${index}`] *)
Definition newKey (index : nat) : string := "new-" +:+ pretty index.

(** The loop [while (key in next) { index += 1; key = `new-${index}`; }]
    from [index] on, for [fuel] keys at most: the key it ends with. *)
Fixpoint findNewKey (next : list (string * value)) (index fuel : nat)
  : option string :=
  match fuel with
  | 0 => None
  | S fuel' =>
      if hasProperty next (newKey index) then findNewKey next (S index) fuel'
      else Some (newKey index)
  end.

(** The value of a map field is a mapping ([Record<string, unknown>]), or
    null or undefined ([None]); [{ ...(value ?? {}) }] is a mapping with its
    entries. *)
Definition spreadOf (v : option (list (string * value)))
  : list (string * value) :=
  default [] v.

(** What the button Add of a map field hands to [onPatch].  The loop has
    one more turn than [next] has entries. *)
Definition mapFieldAdd (s : JsonSchema) (v : option (list (string * value)))
  : option value :=
  let next := spreadOf v in
  key ← findNewKey next 1 (S (length next));
  Some (VObj (obj_assign next key (defaultValue (Some s)))).

(** The entries that a map field shows:
    [Object.entries(value ?? {}).filter(([key]) => !reservedKeys.has(key))] *)
Definition mapEntries (v : option (list (string * value)))
    (reservedKeys : list string) : list (string * value) :=
  List.filter (λ '(key, _), negb (existsb (String.eqb key) reservedKeys))
    (spreadOf v).

Section MapField.
Context `{Host}.

(** What the key input of the entry [i] of a map field hands to [onPatch],
    when its text is changed to [input]; [None] when the handler returns
    without a patch, or when there is no such entry. *)
Definition mapFieldRename (v : option (list (string * value)))
    (reservedKeys : list string) (i : nat) (input : string) : option value :=
  '(key, _) ← mapEntries v reservedKeys !! i;
  let nextKey := js_trim input in
  if String.eqb nextKey "" || String.eqb nextKey key then None
  else
    let next := spreadOf v in
    if hasProperty next nextKey then None
    else
      Some (VObj (obj_delete
                    (obj_assign next nextKey
                       (default VUndefined (obj_lookup next key)))
                    key)).
End MapField.

(** What the button Remove of the entry [i] of a map field hands to
    [onPatch]. *)
Definition mapFieldRemove (v : option (list (string * value)))
    (reservedKeys : list string) (i : nat) : option value :=
  '(key, _) ← mapEntries v reservedKeys !! i;
  Some (VObj (obj_delete (spreadOf v) key)).

(** ** Vocabulary of further properties of the schema normaliser *)

(** A node of the shapes that the form renders: no union; an [enum], if
    any, with a value that is not null; an object without free-form extra
    properties, an array with an item schema, a primitive, or an enum
    without type. *)
Definition supported_node (s : JsonSchema) : bool :=
  match unionVariants s with
  | Some _ => false
  | None =>
      match s_enum s with
      | Some vs => existsb (λ v, negb (nullish v)) vs
      | None => true
      end
      && match node_kind_of (nodeType s) with
         | KObject =>
             match s_additionalProperties s with
             | Some (inr true) => false
             | _ => true
             end
         | KArray =>
             match itemSchema s with Some _ => true | None => false end
         | KPrimitive => true
         | KOther =>
             match s_enum s with Some _ => true | None => false end
         end
  end.

(* ================================================================== *)
(** * Part II: properties                                              *)
(* ================================================================== *)

(** ** Own properties and array elements *)

Section PropertyFacts.
Context {A : Type}.
Implicit Types (fs : list (string * A)) (k : string) (x : A).

Lemma obj_assign_same fs k x :
  obj_lookup fs k = Some x → obj_assign fs k x = fs.
Proof.
  induction fs as [|[k' y] fs IH]; simpl; [discriminate|].
  destruct (String.eqb k' k); intros H.
  - by injection H as ->.
  - by rewrite IH.
Qed.

Lemma obj_lookup_assign fs k x : obj_lookup (obj_assign fs k x) k = Some x.
Proof.
  induction fs as [|[k' y] fs IH]; simpl.
  - by rewrite String.eqb_refl.
  - destruct (String.eqb k' k) eqn:E; simpl; by rewrite E.
Qed.
End PropertyFacts.

Lemma arr_write_same (es : list value) (n : nat) x : es !! n = Some x → arr_write es n x = es.
Proof.
  intros H. unfold arr_write.
  pose proof (lookup_lt_Some _ _ _ H) as Hlt.
  destruct (Nat.ltb_spec n (length es)); [|lia].
  by apply list_insert_id.
Qed.

Lemma arr_write_lookup es n x : arr_write es n x !! n = Some x.
Proof.
  unfold arr_write. destruct (Nat.ltb_spec n (length es)).
  - by apply list_lookup_insert_eq.
  - rewrite lookup_app_r by done.
    rewrite lookup_app_r; rewrite length_replicate; [|done].
    by rewrite Nat.sub_diag.
Qed.

(** ** Slots of a container *)

Lemma readSlot_nullish_or_found (es : list value) (n : nat) :
  nullish (default VUndefined (es !! n)) = false →
  es !! n = Some (default VUndefined (es !! n)).
Proof. by destruct (es !! n). Qed.

Lemma obj_lookup_nullish_or_found (fs : list (string * value)) k :
  nullish (default VUndefined (obj_lookup fs k)) = false →
  obj_lookup fs k = Some (default VUndefined (obj_lookup fs k)).
Proof. by destruct (obj_lookup fs k). Qed.

(** Storing back what was read changes nothing. *)
Lemma storeChild_readSlot current key :
  nullish (readSlot current key) = false →
  storeChild current key (readSlot current key) = current.
Proof.
  unfold storeChild, readSlot, writeSlot.
  destruct current as [| |b|z|str|es ps|fs], key as [n|s]; simpl; try done.
  - intros H. by rewrite arr_write_same by by apply readSlot_nullish_or_found.
  - destruct (classify_array_key s); simpl; try done; intros H.
    + by rewrite arr_write_same by by apply readSlot_nullish_or_found.
    + by rewrite obj_assign_same by by apply obj_lookup_nullish_or_found.
  - intros H. by rewrite obj_assign_same by by apply obj_lookup_nullish_or_found.
  - intros H. by rewrite obj_assign_same by by apply obj_lookup_nullish_or_found.
Qed.

(** Reading back what was written. *)
Lemma readSlot_writeSlot current key x current' :
  writeSlot current key x = Some current' → readSlot current' key = x.
Proof.
  unfold writeSlot.
  destruct current as [| |b|z|str|es ps|fs], key as [n|s]; try done.
  - intros [= <-]. simpl. by rewrite arr_write_lookup.
  - destruct (classify_array_key s) eqn:E; try done; intros [= <-];
      simpl; rewrite E.
    + by rewrite arr_write_lookup.
    + by rewrite obj_lookup_assign.
  - intros [= <-]. simpl. by rewrite obj_lookup_assign.
  - intros [= <-]. simpl. by rewrite obj_lookup_assign.
Qed.

Lemma writeSlot_shape current key x current' :
  writeSlot current key x = Some current' →
  isArray current' = isArray current ∧ isObject current' = isObject current.
Proof.
  unfold writeSlot.
  destruct current as [| |b|z|str|es ps|fs], key as [n|s]; try done;
    try (by intros [= <-]).
  destruct (classify_array_key s); try done; by intros [= <-].
Qed.

Lemma storeChild_shape current key child :
  isArray (storeChild current key child) = isArray current
  ∧ isObject (storeChild current key child) = isObject current.
Proof.
  unfold storeChild. destruct (writeSlot current key child) eqn:E; [|done].
  by apply writeSlot_shape in E.
Qed.

Lemma admits_shape current current' key :
  isArray current' = isArray current → isObject current' = isObject current →
  admits current' key = admits current key.
Proof. intros Ha Ho. destruct key; simpl; congruence. Qed.

(** A new container has nothing in the slot it was made for. *)
Lemma fresh_admits key : admits (fresh key) key = true.
Proof. by destruct key. Qed.

Lemma fresh_readSlot key : readSlot (fresh key) key = VUndefined.
Proof. by destruct key. Qed.

Lemma fresh_writeSlot key x : is_Some (writeSlot (fresh key) key x).
Proof.
  destruct key as [n|s]; simpl; [by eexists|]. eexists. reflexivity.
Qed.

(** ** The walk of [setPathValue] *)

(** A value that is neither an array nor an object stops every walk. *)
Lemma setPathValue_primitive current path v :
  isObject current = false → setPathValue current path v = Some current.
Proof.
  intros H. destruct path as [|key rest]; [done|].
  assert (admits current key = false) as Hadm.
  { destruct key; simpl; [|done]. by destruct current. }
  simpl. rewrite Hadm. by destruct rest.
Qed.

Lemma containerReached_primitive current path :
  isObject current = false → 2 ≤ length path →
  containerReached current path = None.
Proof.
  intros H Hlen. destruct path as [|key [|nextKey rest]]; simpl in *; try lia.
  assert (admits current key = false) as ->; [|done].
  destruct key; simpl; [|done]. by destruct current.
Qed.

(** Once the walk has made a container, it makes all the following ones, and
    the last one admits the final segment. *)
Lemma containerReached_fresh rest key c :
  containerReached (fresh key) (key :: rest) = Some c →
  ∃ lastKey, last (key :: rest) = Some lastKey ∧ c = fresh lastKey.
Proof.
  revert key. induction rest as [|nextKey rest IH]; intros key.
  - simpl. intros [= <-]. by exists key.
  - cbn [containerReached]. rewrite fresh_admits, fresh_readSlot. simpl nullish.
    cbv iota. intros H. apply IH in H as (lastKey & Hlast & ->).
    exists lastKey. split; [|done]. by rewrite last_cons, Hlast.
Qed.

(** Unfolding of one turn of the loops, for a path with a next segment. *)
Lemma setPathValue_cons current key rest nextKey v :
  head rest = Some nextKey →
  setPathValue current (key :: rest) v =
    if admits current key then
      if nullish (readSlot current key) then
        current1 ← writeSlot current key (fresh nextKey);
        child ← setPathValue (fresh nextKey) rest v;
        Some (storeChild current1 key child)
      else
        child ← setPathValue (readSlot current key) rest v;
        Some (storeChild current key child)
    else Some current.
Proof. destruct rest as [|k rest]; [done|]. by intros [= ->]. Qed.

Lemma containerReached_cons current key rest nextKey :
  head rest = Some nextKey →
  containerReached current (key :: rest) =
    if admits current key then
      containerReached
        (if nullish (readSlot current key) then fresh nextKey
         else readSlot current key) rest
    else None.
Proof. destruct rest as [|k rest]; [done|]. by intros [= ->]. Qed.

Lemma head_snoc_is_Some (pre : list segment) key :
  ∃ nextKey, head (pre ++ [key]) = Some nextKey
             ∧ ∀ post, head (pre ++ key :: post) = Some nextKey.
Proof. destruct pre as [|p pre]; simpl; eauto. Qed.

Lemma admits_isObject current key : admits current key = true → isObject current = true.
Proof. destruct key, current; simpl; congruence. Qed.

Lemma slotAt_nil tree key :
  slotAt tree [] key = if admits tree key then Some (readSlot tree key) else None.
Proof. done. Qed.

Lemma containerReached_fresh_snoc pre key nextKey :
  head (pre ++ [key]) = Some nextKey →
  containerReached (fresh nextKey) (pre ++ [key]) = Some (fresh key).
Proof.
  revert nextKey. induction pre as [|q pre IH]; intros nextKey.
  - by intros [= <-].
  - intros [= <-].
    destruct (head_snoc_is_Some pre key) as (n & Hhd & _).
    change ((q :: pre) ++ [key]) with (q :: (pre ++ [key])).
    rewrite (containerReached_cons _ _ _ _ Hhd).
    rewrite fresh_admits, fresh_readSlot. simpl nullish. cbv iota.
    by apply IH.
Qed.

Lemma slotAt_cons tree p pre key :
  slotAt tree (p :: pre) key =
    if admits tree p then
      if nullish (readSlot tree p) then Some VUndefined
      else slotAt (readSlot tree p) pre key
    else None.
Proof.
  unfold slotAt.
  destruct (head_snoc_is_Some pre key) as (nextKey & Hhd & _).
  change ((p :: pre) ++ [key]) with (p :: (pre ++ [key])).
  rewrite (containerReached_cons _ _ _ _ Hhd).
  destruct (admits tree p); [|done].
  destruct (nullish (readSlot tree p)); [|done].
  rewrite (containerReached_fresh_snoc _ _ _ Hhd). simpl.
  by rewrite fresh_admits, fresh_readSlot.
Qed.

Lemma slotAt_isObject tree pre key x :
  slotAt tree pre key = Some x → isObject tree = true.
Proof.
  destruct pre as [|p pre].
  - rewrite slotAt_nil. destruct (admits tree key) eqn:E; [|done].
    intros _. by eapply admits_isObject.
  - rewrite slotAt_cons. destruct (admits tree p) eqn:E; [|done].
    intros _. by eapply admits_isObject.
Qed.

(** Reading a slot after the child was stored back. *)
Lemma readSlot_storeChild current key child :
  admits current key = true →
  (isObject (readSlot current key) = false → child = readSlot current key) →
  readSlot (storeChild current key child) key = child.
Proof.
  intros Hadm Hprim. unfold storeChild.
  destruct (writeSlot current key child) as [current'|] eqn:E; simpl.
  - by eapply readSlot_writeSlot.
  - symmetry. apply Hprim. revert E. unfold writeSlot, readSlot.
    destruct current as [| |b|z|str|es ps|fs], key as [n|s]; try done.
    by destruct (classify_array_key s).
Qed.

(** A walk that leaves the value of a slot as it was leaves the tree as it
    was. *)
Lemma setPathValue_unchanged_below tree pre key post v x :
  post ≠ [] →
  slotAt tree pre key = Some x → nullish x = false →
  setPathValue x post v = Some x →
  setPathValue tree (pre ++ key :: post) v = Some tree.
Proof.
  intros Hpost. revert tree.
  induction pre as [|p pre IH]; intros tree Hslot Hx Hset.
  - rewrite slotAt_nil in Hslot. simpl app.
    destruct post as [|nextKey post]; [done|].
    rewrite (setPathValue_cons _ _ _ nextKey) by done.
    destruct (admits tree key); [|done]. injection Hslot as <-.
    rewrite Hx, Hset. simpl. by rewrite storeChild_readSlot.
  - rewrite slotAt_cons in Hslot.
    destruct (head_snoc_is_Some pre key) as (nextKey & _ & Hhd).
    change ((p :: pre) ++ key :: post) with (p :: (pre ++ key :: post)).
    rewrite (setPathValue_cons _ _ _ nextKey) by done.
    destruct (admits tree p); [|done].
    destruct (nullish (readSlot tree p)) eqn:Hnull.
    + injection Hslot as <-. done.
    + rewrite (IH _ Hslot Hx Hset). simpl. by rewrite storeChild_readSlot.
Qed.

(** A walk that goes through an existing slot updates the value found there. *)
Lemma setPathValue_updates_below tree pre key post v x x' :
  post ≠ [] →
  slotAt tree pre key = Some x → nullish x = false →
  setPathValue x post v = Some x' →
  ∃ tree', setPathValue tree (pre ++ key :: post) v = Some tree'
           ∧ slotAt tree' pre key = Some x'.
Proof.
  intros Hpost. revert tree.
  induction pre as [|p pre IH]; intros tree Hslot Hx Hset.
  - rewrite slotAt_nil in Hslot. simpl app.
    destruct post as [|nextKey post]; [done|].
    rewrite (setPathValue_cons _ _ _ nextKey) by done.
    destruct (admits tree key) eqn:Hadm; [|done]. injection Hslot as <-.
    rewrite Hx, Hset. simpl. eexists. split; [done|].
    rewrite slotAt_nil.
    destruct (storeChild_shape tree key x') as [Ha Ho].
    rewrite (admits_shape _ _ _ Ha Ho), Hadm. f_equal.
    apply readSlot_storeChild; [done|]. intros Hprim.
    rewrite setPathValue_primitive in Hset by done. congruence.
  - rewrite slotAt_cons in Hslot.
    destruct (head_snoc_is_Some pre key) as (nextKey & _ & Hhd).
    change ((p :: pre) ++ key :: post) with (p :: (pre ++ key :: post)).
    rewrite (setPathValue_cons _ _ _ nextKey) by done.
    destruct (admits tree p) eqn:Hadm; [|done].
    destruct (nullish (readSlot tree p)) eqn:Hnull.
    + injection Hslot as <-. done.
    + destruct (IH _ Hslot Hx Hset) as (child & Hchild & Hslot').
      rewrite Hchild. simpl. eexists. split; [done|].
      rewrite slotAt_cons.
      destruct (storeChild_shape tree p child) as [Ha Ho].
      rewrite (admits_shape _ _ _ Ha Ho), Hadm.
      assert (readSlot (storeChild tree p child) p = child) as ->.
      { apply readSlot_storeChild; [done|]. intros Hprim.
        rewrite setPathValue_primitive in Hchild by done. congruence. }
      apply slotAt_isObject in Hslot' as Hobj.
      assert (nullish child = false) as -> by by destruct child.
      done.
Qed.

Lemma setPathValue_none_below tree pre key post v x :
  post ≠ [] →
  slotAt tree pre key = Some x → nullish x = false →
  setPathValue x post v = None →
  setPathValue tree (pre ++ key :: post) v = None.
Proof.
  intros Hpost. revert tree.
  induction pre as [|p pre IH]; intros tree Hslot Hx Hset.
  - rewrite slotAt_nil in Hslot. simpl app.
    destruct post as [|nextKey post]; [done|].
    rewrite (setPathValue_cons _ _ _ nextKey) by done.
    destruct (admits tree key); [|done]. injection Hslot as <-.
    by rewrite Hx, Hset.
  - rewrite slotAt_cons in Hslot.
    destruct (head_snoc_is_Some pre key) as (nextKey & _ & Hhd).
    change ((p :: pre) ++ key :: post) with (p :: (pre ++ key :: post)).
    rewrite (setPathValue_cons _ _ _ nextKey) by done.
    destruct (admits tree p); [|done].
    destruct (nullish (readSlot tree p)) eqn:Hnull.
    + injection Hslot as <-. done.
    + by rewrite (IH _ Hslot Hx Hset).
Qed.

(** ** Claims about the path mutator *)

(** C8.  [setPathValue] on the empty mapping with the path ["a", "b", 0] and
    the value "x" gives {a: {b: ["x"]}}: a mapping, then a sequence, are made
    on the way.  [removePathValue] of the same path on that tree gives
    {a: {b: []}}: index 0 is spliced out of the sequence. *)
Theorem set_then_remove_example :
  setPathValue emptyObject [Key "a"; Key "b"; Idx 0] (VStr "x")
    = Some (VObj [("a", VObj [("b", VArr [VStr "x"] [])])])
  ∧ removePathValue (VObj [("a", VObj [("b", VArr [VStr "x"] [])])])
      [Key "a"; Key "b"; Idx 0]
    = Some (VObj [("a", VObj [("b", VArr [] [])])]).
Proof. split; reflexivity. Qed.

(** C2, as amended.  When the container that the final segment is applied to
    is not a sequence and the segment is an integer, or is not an object at
    all (it is a primitive: neither a mapping nor a sequence) and the segment
    is a string, [setPathValue] returns and leaves the tree as it was. *)
Theorem setPathValue_misuse_is_noop tree path v c key :
  containerReached tree path = Some c →
  last path = Some key →
  (is_idx key = true ∧ isArray c = false)
  ∨ (is_idx key = false ∧ isObject c = false) →
  setPathValue tree path v = Some tree.
Proof.
  intros Hreach Hlast Hmis.
  assert (admits c key = false) as Hadm.
  { destruct key, Hmis as [[Hk Hc]|[Hk Hc]]; simpl in *; congruence. }
  revert tree Hreach Hlast.
  induction path as [|k rest IH]; intros tree Hreach Hlast; [done|].
  destruct rest as [|nextKey rest].
  - simpl in *. injection Hreach as ->. injection Hlast as ->.
    by rewrite Hadm.
  - rewrite (containerReached_cons _ _ _ nextKey) in Hreach by done.
    rewrite (setPathValue_cons _ _ _ nextKey) by done.
    destruct (admits tree k); [|done].
    rewrite last_cons_cons in Hlast.
    destruct (nullish (readSlot tree k)) eqn:Hnull.
    + apply containerReached_fresh in Hreach as (lastKey & Hlast' & ->).
      rewrite Hlast in Hlast'. injection Hlast' as <-.
      by rewrite fresh_admits in Hadm.
    + rewrite (IH _ Hreach Hlast). simpl. by rewrite storeChild_readSlot.
Qed.

Lemma setPathValue_misuse_is_noop_witness :
  setPathValue (VObj [("a", VStr "text")]) [Key "a"; Key "b"] (VNum 1)
  = Some (VObj [("a", VStr "text")]).
Proof.
  apply (setPathValue_misuse_is_noop _ _ _ (VStr "text") (Key "b")).
  - reflexivity.
  - reflexivity.
  - right. split; reflexivity.
Defined.

(** C2, as stated, fails: a string segment applied to a sequence is written.
    The container reached by ["a", "0"] in {a: ["x"]} is the sequence ["x"],
    which is not a mapping, and the call replaces its element. *)
Lemma set_string_key_into_sequence_writes :
  let tree := VObj [("a", VArr [VStr "x"] [])] in
  let path := [Key "a"; Key "0"] in
  containerReached tree path = Some (VArr [VStr "x"] [])
  ∧ last path = Some (Key "0")
  ∧ is_idx (Key "0") = false
  ∧ isMapping (VArr [VStr "x"] []) = false
  ∧ setPathValue tree path (VStr "y") = Some (VObj [("a", VArr [VStr "y"] [])])
  ∧ setPathValue tree path (VStr "y") ≠ Some tree.
Proof. repeat split; try reflexivity. discriminate. Qed.

(** C10.  Take a segment that is followed by others, and let [x] be what the
    walk of [setPathValue] finds in its slot, neither null nor undefined.
    No container is made for that slot: the walk goes on inside [x], and
    after the call the slot holds [x] as the rest of the walk left it.  When
    [x] is a string, a number or a boolean, the call leaves the whole tree as
    it was. *)
Theorem setPathValue_existing_slot tree pre key post v x :
  post ≠ [] →
  slotAt tree pre key = Some x →
  nullish x = false →
  (setPathValue tree (pre ++ key :: post) v ≫= (λ tree', slotAt tree' pre key)
   = setPathValue x post v)
  ∧ (isScalar x = true →
     setPathValue tree (pre ++ key :: post) v = Some tree).
Proof.
  intros Hpost Hslot Hx. split.
  - destruct (setPathValue x post v) as [x'|] eqn:Hset.
    + destruct (setPathValue_updates_below _ _ _ _ _ _ _ Hpost Hslot Hx Hset)
        as (tree' & -> & Hslot').
      done.
    + by rewrite (setPathValue_none_below _ _ _ _ _ _ Hpost Hslot Hx Hset).
  - intros Hscalar. eapply setPathValue_unchanged_below; try done.
    apply setPathValue_primitive. by destruct x.
Qed.

Lemma setPathValue_existing_slot_witness :
  let tree := VObj [("gateway", VObj [("mode", VStr "local")])] in
  (setPathValue tree ([Key "gateway"] ++ Key "mode" :: [Key "x"]) (VNum 1)
     ≫= (λ tree', slotAt tree' [Key "gateway"] (Key "mode"))
   = setPathValue (VStr "local") [Key "x"] (VNum 1))
  ∧ setPathValue tree ([Key "gateway"] ++ Key "mode" :: [Key "x"]) (VNum 1)
    = Some tree.
Proof.
  intros tree.
  destruct (setPathValue_existing_slot tree [Key "gateway"] (Key "mode")
              [Key "x"] (VNum 1) (VStr "local")) as [Hslot Hscalar].
  - discriminate.
  - reflexivity.
  - reflexivity.
  - split; [exact Hslot|]. apply Hscalar. reflexivity.
Defined.

(** ** Deduplication *)

Section DedupeFacts.
Context {A : Type} (same : A → A → bool).
Implicit Types (l unique : list A).

Lemma dedupe_from_app unique l1 l2 :
  dedupe_from same unique (l1 ++ l2)
  = dedupe_from same (dedupe_from same unique l1) l2.
Proof. unfold dedupe_from. by rewrite fold_left_app. Qed.

Lemma dedupe_from_cons unique x l :
  dedupe_from same unique (x :: l)
  = dedupe_from same (push_unique same unique x) l.
Proof. done. Qed.





(** Nothing is invented. *)
Lemma elem_of_dedupe_from unique l x :
  x ∈ dedupe_from same unique l → x ∈ unique ∨ x ∈ l.
Proof.
  revert unique. induction l as [|y l IH]; intros unique.
  - by left.
  - rewrite dedupe_from_cons. intros H. apply IH in H as [H|H].
    + unfold push_unique in H. destruct (existsb _ unique).
      * by left.
      * apply elem_of_app in H as [H|H]; [by left|].
        apply list_elem_of_singleton in H as ->. right. left.
    + right. by right.
Qed.

(** Nothing is lost, when only equal values are the same. *)
Lemma dedupe_from_elem_of unique l x :
  (∀ a b, same a b = true → a = b) →
  x ∈ unique ∨ x ∈ l → x ∈ dedupe_from same unique l.
Proof.
  intros Hsame. revert unique.
  induction l as [|y l IH]; intros unique.
  - intros [H|H]; [done|]. by apply elem_of_nil in H.
  - rewrite dedupe_from_cons. intros H. apply IH. unfold push_unique.
    destruct (existsb (λ entry, same entry y) unique) eqn:Hex.
    + destruct H as [H|H]; [by left|].
      apply elem_of_cons in H as [->|H]; [|by right].
      apply existsb_exists in Hex as (e & Hin & He).
      apply Hsame in He as ->. left. by apply list_elem_of_In.
    + destruct H as [H|H].
      * left. apply elem_of_app. by left.
      * apply elem_of_cons in H as [->|H]; [|by right].
        left. apply elem_of_app. right. left.
Qed.

Lemma distinct_by_snoc unique x :
  distinct_by same unique →
  existsb (λ entry, same entry x) unique = false →
  distinct_by same (unique ++ [x]).
Proof.
  intros Hd Hex i j a b Hij Ha Hb.
  destruct (decide (j < length unique)) as [Hj|Hj].
  - rewrite lookup_app_l in Ha by lia. rewrite lookup_app_l in Hb by lia.
    exact (Hd i j a b Hij Ha Hb).
  - assert (j = length unique) as ->.
    { apply lookup_lt_Some in Hb. rewrite length_app in Hb. simpl in Hb.
      lia. }
    rewrite lookup_app_l in Ha by lia.
    rewrite lookup_app_r, Nat.sub_diag in Hb by lia.
    injection Hb as <-.
    destruct (same a x) eqn:E; [|done].
    assert (existsb (λ entry, same entry x) unique = true) as Hex'; [|congruence].
    apply existsb_exists. exists a. split; [|done].
    apply list_elem_of_In. by eapply list_elem_of_lookup_2.
Qed.

Lemma distinct_by_dedupe_from unique l :
  distinct_by same unique → distinct_by same (dedupe_from same unique l).
Proof.
  revert unique. induction l as [|x l IH]; intros unique Hd; [done|].
  rewrite dedupe_from_cons. apply IH. unfold push_unique.
  destruct (existsb _ unique) eqn:Hex; [done|].
  by apply distinct_by_snoc.
Qed.

Lemma distinct_by_dedupe l : distinct_by same (dedupe same l).
Proof.
  apply distinct_by_dedupe_from. intros i j x y _ H. by destruct i.
Qed.
End DedupeFacts.

Lemma object_is_eq a b : object_is a b = true → a = b.
Proof.
  destruct a, b; simpl; try done.
  - intros H. by apply Bool.eqb_prop in H as ->.
  - intros H. by apply Z.eqb_eq in H as ->.
  - intros H. by apply String.eqb_eq in H as ->.
Qed.

Lemma elem_of_dedupe_object_is l x : x ∈ dedupe object_is l ↔ x ∈ l.
Proof.
  split.
  - intros H. apply elem_of_dedupe_from in H as [H|H]; [|done].
    by apply elem_of_nil in H.
  - intros H. apply dedupe_from_elem_of; [apply object_is_eq|by right].
Qed.

(** ** The loop over the variants of a union *)

Lemma normalizeEnumValues_elem_of vs x :
  x ∈ (normalizeEnumValues vs).1 ↔ x ∈ vs ∧ nullish x = false.
Proof.
  unfold normalizeEnumValues. simpl. rewrite elem_of_dedupe_object_is.
  rewrite !list_elem_of_In, filter_In, negb_true_iff. done.
Qed.

Lemma normalizeEnumValues_nullable vs :
  (normalizeEnumValues vs).2 = existsb nullish vs.
Proof.
  unfold normalizeEnumValues. simpl.
  induction vs as [|v vs IH]; [done|]. simpl.
  pose proof (List.filter_length_le (λ v, negb (nullish v)) vs) as Hle.
  destruct (nullish v); simpl.
  - destruct (Nat.eqb_spec (length (List.filter (λ v, negb (nullish v)) vs))
                (S (length vs))); [lia|done].
  - exact IH.
Qed.

Lemma scan_variants_from {V : Type} (variants : list (JsonSchema * V)) acc :
  fold_left (λ acc '(variant, keep), scan_variant acc variant keep)
    variants acc
  = mkScan
      (scan_values acc ++ flat_map (λ vk, variant_values vk.1) variants)
      (scan_nonLiteral acc
       ++ map snd (List.filter (λ vk, is_nonLiteral vk.1) variants))
      (scan_nullable acc || existsb (λ vk, variant_nullable vk.1) variants).
Proof.
  revert acc. induction variants as [|[variant keep] variants IH]; intros acc.
  - simpl. rewrite !app_nil_r, orb_false_r. by destruct acc.
  - simpl. rewrite IH. clear IH.
    unfold scan_variant, variant_values, variant_nullable, is_nonLiteral,
      is_literal.
    destruct (s_enum variant) as [vs|].
    + destruct (normalizeEnumValues vs) as [enumValues enumNullable]. simpl.
      rewrite <- app_assoc. f_equal.
      destruct enumNullable, (scan_nullable acc); done.
    + destruct (s_const variant) as [c|]; simpl.
      * destruct (nullish c); simpl.
        -- f_equal. by rewrite orb_true_r.
        -- by rewrite <- app_assoc.
      * destruct (is_type "null" (schemaType variant)); simpl.
        -- f_equal. by rewrite orb_true_r.
        -- by rewrite <- app_assoc.
Qed.

Lemma scan_variants_spec {V : Type} (variants : list (JsonSchema * V)) :
  scan_variants variants
  = mkScan (flat_map (λ vk, variant_values vk.1) variants)
      (map snd (List.filter (λ vk, is_nonLiteral vk.1) variants))
      (existsb (λ vk, variant_nullable vk.1) variants).
Proof. unfold scan_variants. by rewrite scan_variants_from. Qed.

(** The same, for variants paired with anything by [map]. *)
Lemma flat_map_paired {V : Type} (f : JsonSchema → V) (g : JsonSchema → list value) vs :
  flat_map (λ vk : JsonSchema * V, g vk.1) (map (λ v, (v, f v)) vs)
  = flat_map g vs.
Proof. induction vs as [|v vs IH]; simpl; [done|]. by rewrite IH. Qed.

Lemma filter_paired {V : Type} (f : JsonSchema → V) (p : JsonSchema → bool) vs :
  map snd (List.filter (λ vk : JsonSchema * V, p vk.1) (map (λ v, (v, f v)) vs))
  = map f (List.filter p vs).
Proof.
  induction vs as [|v vs IH]; simpl; [done|].
  destruct (p v); simpl; by rewrite IH.
Qed.

Lemma existsb_paired {V : Type} (f : JsonSchema → V) (p : JsonSchema → bool) vs :
  existsb (λ vk : JsonSchema * V, p vk.1) (map (λ v, (v, f v)) vs)
  = existsb p vs.
Proof. induction vs as [|v vs IH]; simpl; [done|]. by rewrite IH. Qed.

Lemma normalizeSchemaNode_union s path variants :
  unionVariants s = Some variants →
  normalizeSchemaNode s path =
    match normalizeUnion s
            (map (λ variant, (variant, normalizeSchemaNode variant path))
               variants)
    with
    | Some union => union
    | None => mkAnalysis (Some s) [pathLabel path]
    end.
Proof.
  destruct s as [ty ti de pr it ap en co df [a|] [o|] [l|] nu];
    unfold unionVariants; simpl; intros [= <-]; reflexivity.
Qed.

(** The values gathered from a variant are its literals that are not null. *)
Lemma variant_values_elem_of variant x :
  x ∈ variant_values variant ↔ x ∈ literals variant ∧ nullish x = false.
Proof.
  unfold variant_values, literals.
  destruct (s_enum variant) as [vs|].
  - apply normalizeEnumValues_elem_of.
  - destruct (s_const variant) as [c|].
    + destruct (nullish c) eqn:E.
      * split; [by intros ?%elem_of_nil|].
        intros [->%list_elem_of_singleton ?]. congruence.
      * rewrite list_elem_of_singleton. split; [by intros ->|by intros [-> _]].
    + split; [by intros ?%elem_of_nil|]. by intros [?%elem_of_nil _].
Qed.

Lemma union_values_elem_of variants x :
  x ∈ flat_map variant_values variants ↔ x ∈ union_literals variants.
Proof.
  unfold union_literals.
  rewrite !list_elem_of_In, filter_In, !in_flat_map, negb_true_iff.
  split.
  - intros (v & Hv & Hx). apply list_elem_of_In in Hx.
    apply variant_values_elem_of in Hx as [Hx Hn]. split; [|done].
    exists v. split; [done|]. by apply list_elem_of_In.
  - intros [(v & Hv & Hx) Hn]. exists v. split; [done|].
    apply list_elem_of_In, variant_values_elem_of. split; [|done].
    by apply list_elem_of_In.
Qed.

Lemma variant_nullable_iff variant :
  variant_nullable variant = true ↔
  is_null_variant variant = true
  ∨ ∃ x, x ∈ literals variant ∧ nullish x = true.
Proof.
  unfold variant_nullable, is_null_variant, is_literal, literals.
  destruct (s_enum variant) as [vs|].
  - rewrite normalizeEnumValues_nullable, existsb_exists. simpl. split.
    + intros (x & Hx & Hn). right. exists x. split; [|done].
      by apply list_elem_of_In.
    + intros [?|(x & Hx & Hn)]; [done|]. exists x. split; [|done].
      by apply list_elem_of_In.
  - destruct (s_const variant) as [c|]; simpl.
    + split.
      * intros H. right. exists c. split; [left|done].
      * intros [?|(x & ->%list_elem_of_singleton & Hn)]; done.
    + split; [by left|]. intros [?|(x & ?%elem_of_nil & _)]; done.
Qed.

Lemma normalizeUnion_scan path variants :
  scan_variants (map (λ v, (v, normalizeSchemaNode v path)) variants)
  = mkScan (flat_map variant_values variants)
      (map (λ v, normalizeSchemaNode v path)
         (List.filter is_nonLiteral variants))
      (existsb variant_nullable variants).
Proof.
  by rewrite scan_variants_spec, flat_map_paired, filter_paired, existsb_paired.
Qed.

Lemma filter_nonLiteral_nil variants :
  Forall (λ v, is_literal v = true ∨ is_null_variant v = true) variants →
  List.filter is_nonLiteral variants = [].
Proof.
  induction 1 as [|v vs Hv _ IH]; [done|]. simpl.
  assert (is_nonLiteral v = false) as ->; [|done].
  unfold is_nonLiteral, is_null_variant in *.
  destruct (is_literal v), (is_type "null" (schemaType v)), Hv; done.
Qed.

(** A union with exactly one non-literal variant is reduced to that variant,
    normalised and made nullable, whatever literals come with it. *)
Lemma single_nonLiteral_union_is_nullable s path variants X :
  unionVariants s = Some variants →
  List.filter is_nonLiteral variants = [X] →
  normalizeSchemaNode s path
  = mkAnalysis
      (set_nullable (Some true) <$> schema (normalizeSchemaNode X path))
      (unsupportedPaths (normalizeSchemaNode X path)).
Proof.
  intros Hunion Hone. rewrite (normalizeSchemaNode_union _ _ _ Hunion).
  unfold normalizeUnion. rewrite normalizeUnion_scan, Hone. simpl.
  by destruct (flat_map variant_values variants).
Qed.

(** ** Claims about unions *)

(** C3, as amended.  A union node whose variants are all enum or const
    literals, with or without null variants, and with at least one literal
    that is not null, is normalised to one enum node.  The values of that node
    are the literals of the variants that are not null, no two of them the
    same value; its [nullable] is true exactly when there is a null variant or
    a null literal; no path is reported as unsupported. *)
Theorem literal_union_is_one_enum s path variants :
  unionVariants s = Some variants →
  Forall (λ v, is_literal v = true ∨ is_null_variant v = true) variants →
  union_literals variants ≠ [] →
  ∃ enumValues nullable,
    normalizeSchemaNode s path
    = mkAnalysis
        (Some (clear_unions
                 (set_nullable (Some nullable)
                    (set_enum (Some enumValues) s))))
        []
    ∧ (∀ x, x ∈ enumValues ↔ x ∈ union_literals variants)
    ∧ distinct_by object_is enumValues
    ∧ (nullable = true ↔
       ∃ v, v ∈ variants
            ∧ (is_null_variant v = true
               ∨ ∃ x, x ∈ literals v ∧ nullish x = true)).
Proof.
  intros Hunion Hlit Hvalues.
  exists (dedupe object_is (flat_map variant_values variants)),
    (existsb variant_nullable variants).
  split; [|split; [|split]].
  - rewrite (normalizeSchemaNode_union _ _ _ Hunion). unfold normalizeUnion.
    rewrite normalizeUnion_scan. simpl.
    rewrite (filter_nonLiteral_nil _ Hlit). simpl.
    destruct (flat_map variant_values variants) as [|x xs] eqn:E; [|done].
    exfalso. destruct (union_literals variants) as [|y ys] eqn:E'; [done|].
    assert (y ∈ flat_map variant_values variants) as Hy.
    { apply union_values_elem_of. rewrite E'. left. }
    rewrite E in Hy. by apply elem_of_nil in Hy.
  - intros x. by rewrite elem_of_dedupe_object_is, union_values_elem_of.
  - apply distinct_by_dedupe.
  - rewrite existsb_exists. split.
    + intros (v & Hv & Hn). exists v. split; [by apply list_elem_of_In|].
      by apply variant_nullable_iff.
    + intros (v & Hv & Hn). exists v. split; [by apply list_elem_of_In|].
      by apply variant_nullable_iff.
Qed.

Lemma literal_union_is_one_enum_witness :
  let a := set_const (Some (VStr "a")) emptySchema in
  let b := set_enum (Some [VStr "b"; VNull; VStr "a"]) emptySchema in
  let s := set_anyOf (Some [a; b]) emptySchema in
  ∃ enumValues nullable,
    normalizeSchemaNode s []
    = mkAnalysis
        (Some (clear_unions
                 (set_nullable (Some nullable)
                    (set_enum (Some enumValues) s))))
        []
    ∧ (∀ x, x ∈ enumValues ↔ x ∈ union_literals [a; b])
    ∧ distinct_by object_is enumValues
    ∧ (nullable = true ↔
       ∃ v, v ∈ [a; b]
            ∧ (is_null_variant v = true
               ∨ ∃ x, x ∈ literals v ∧ nullish x = true)).
Proof.
  intros a b s.
  apply (literal_union_is_one_enum s [] [a; b]).
  - reflexivity.
  - repeat constructor.
  - discriminate.
Defined.

(** C3, as stated, fails when null is the only literal: every variant of
    {anyOf: [{enum: [null]}]} is an enum literal, and the node is left as it
    was, with its path reported as unsupported. *)
Lemma null_only_literal_union_is_unsupported :
  let variant := set_enum (Some [VNull]) emptySchema in
  let s := set_anyOf (Some [variant]) emptySchema in
  unionVariants s = Some [variant]
  ∧ Forall (λ v, is_literal v = true ∨ is_null_variant v = true) [variant]
  ∧ normalizeSchemaNode s [] = mkAnalysis (Some s) ["<root>"]
  ∧ unsupportedPaths (normalizeSchemaNode s []) ≠ [].
Proof.
  repeat split; try reflexivity; [|discriminate].
  repeat constructor.
Qed.



(** ** A node that is not a union *)

(** The branch of [normalizeSchemaNode] for a node without union keyword. *)
Lemma normalizeSchemaNode_plain_unfold s path :
  unionVariants s = None →
  normalizeSchemaNode s path =
    let type := nodeType s in
    let normalized0 :=
      set_nullable (if typeIncludesNull s then Some true else s_nullable s)
        (set_type (match type with
                   | Some t => Some (TypeName t)
                   | None => s_type s
                   end) s) in
    let '(normalized1, unsupported1) := normalizeEnumOf normalized0 path in
    let '(normalized2, unsupported2) :=
      match node_kind_of type with
      | KObject =>
          let results :=
            match s_properties s with
            | Some props =>
                map (λ '(key, child),
                       (key, normalizeSchemaNode child (path ++ [Key key])))
                  props
            | None => []
            end in
          let normalizedProps :=
            omap (λ '(key, result), (λ n, (key, n)) <$> schema result)
              results in
          let unsupportedProps :=
            concat (map (λ '(_, result), unsupportedPaths result) results) in
          let n := set_properties (Some normalizedProps) normalized1 in
          match s_additionalProperties s with
          | Some (inr true) => (n, unsupportedProps ++ [pathLabel path])
          | Some (inr false) =>
              (set_additionalProperties (Some (inr false)) n,
               unsupportedProps)
          | Some (inl extra) =>
              let result := normalizeSchemaNode extra (path ++ [Key "*"]) in
              (set_additionalProperties
                 (Some (inl (default extra (schema result)))) n,
               unsupportedProps
                 ++ match unsupportedPaths result with
                    | [] => []
                    | _ :: _ => [pathLabel path]
                    end)
          | None => (n, unsupportedProps)
          end
      | KArray =>
          let itemResult :=
            match s_items s with
            | Some (inl item) =>
                Some (item, normalizeSchemaNode item (path ++ [Key "*"]))
            | Some (inr many) =>
                head (map (λ item,
                             (item,
                              normalizeSchemaNode item (path ++ [Key "*"])))
                        many)
            | None => None
            end in
          match itemResult with
          | None => (normalized1, [pathLabel path])
          | Some (item, result) =>
              (set_items (Some (inl (default item (schema result))))
                 normalized1,
               match unsupportedPaths result with
               | [] => []
               | _ :: _ => [pathLabel path]
               end)
          end
      | KPrimitive => (normalized1, [])
      | KOther =>
          (normalized1,
           match s_enum normalized1 with
           | Some _ => []
           | None => [pathLabel path]
           end)
      end in
    mkAnalysis (Some normalized2)
      (dedupe String.eqb (unsupported1 ++ unsupported2)).
Proof.
  destruct s as [ty ti de pr it ap en co df [a|] [o|] [l|] nu];
    unfold unionVariants; simpl; try discriminate.
  reflexivity.
Qed.

Lemma childResults_unsupported (f : string → JsonSchema → ConfigSchemaAnalysis) props :
  concat (map (λ '(_, result), unsupportedPaths result)
            (map (λ '(key, child), (key, f key child)) props))
  = concat (map (λ '(key, child), unsupportedPaths (f key child)) props).
Proof.
  induction props as [|[k c] props IH]; simpl; [done|]. by rewrite IH.
Qed.

Lemma childResults_schemas (f : string → JsonSchema → ConfigSchemaAnalysis) props :
  omap (λ '(key, result), (λ n, (key, n)) <$> schema result)
    (map (λ '(key, child), (key, f key child)) props)
  = omap (λ '(key, child), (λ n, (key, n)) <$> schema (f key child)) props.
Proof.
  induction props as [|[k c] props IH]; [done|]. simpl.
  destruct (schema (f k c)); simpl; [f_equal|]; exact IH.
Qed.

Lemma head_paired {B : Type} (f : JsonSchema → B) many :
  head (map (λ item, (item, f item)) many)
  = (λ item, (item, f item)) <$> head many.
Proof. by destruct many. Qed.

(** The node and the paths that the branch gives. *)
Lemma normalizeSchemaNode_plain s path :
  unionVariants s = None →
  ∃ N,
    normalizeSchemaNode s path
    = mkAnalysis (Some N)
        (dedupe String.eqb (enumUnsupported s path ++ kindUnsupported s path))
    ∧ unionVariants N = None
    ∧ s_type N = match nodeType s with
                 | Some t => Some (TypeName t)
                 | None => s_type s
                 end
    ∧ s_enum N = (λ vs, (normalizeEnumValues vs).1) <$> s_enum s
    ∧ s_properties N =
        match node_kind_of (nodeType s) with
        | KObject =>
            Some (omap (λ '(key, child),
                          (λ n, (key, n))
                            <$> schema (normalizeSchemaNode child
                                          (path ++ [Key key])))
                    (default [] (s_properties s)))
        | _ => s_properties s
        end
    ∧ s_additionalProperties N =
        match node_kind_of (nodeType s), s_additionalProperties s with
        | KObject, Some (inl extra) =>
            Some (inl (default extra
                         (schema (normalizeSchemaNode extra
                                    (path ++ [Key "*"])))))
        | _, other => other
        end
    ∧ s_items N =
        match node_kind_of (nodeType s), itemSchema s with
        | KArray, Some item =>
            Some (inl (default item
                         (schema (normalizeSchemaNode item
                                    (path ++ [Key "*"])))))
        | _, _ => s_items s
        end.
Proof.
  intros Hu. rewrite (normalizeSchemaNode_plain_unfold _ _ Hu).
  unfold enumUnsupported, kindUnsupported, itemSchema, normalizeEnumOf.
  destruct s as [ty ti de pr it ap en co df a o l nu].
  unfold unionVariants in *. cbn [s_anyOf s_oneOf s_allOf] in Hu.
  cbn [s_type s_properties s_items s_additionalProperties s_enum s_nullable
       set_type set_nullable set_enum set_properties set_items
       set_additionalProperties].
  set (s := mkJsonSchema ty ti de pr it ap en co df a o l nu) in *.
  destruct en as [vs|];
    [destruct (normalizeEnumValues vs) as [ev [|]] eqn:E|];
    cbn [fst snd fmap option_fmap option_map];
    (destruct (node_kind_of (nodeType s)) eqn:K;
     [ destruct pr as [props|], ap as [[extra|[|]]|]
     | destruct it as [[item|[|item many]]|]
     | | ]).
  all: cbn [head map fst snd default].
  all: rewrite ?childResults_unsupported, ?app_nil_r.
  all: eexists; split; [reflexivity|].
  all: cbn [s_type s_properties s_items s_additionalProperties s_enum
            s_anyOf s_oneOf s_allOf set_type set_nullable set_enum
            set_properties set_items set_additionalProperties s
            fst snd fmap option_fmap option_map head default].
  all: rewrite ?childResults_schemas.
  all: repeat split; try done.
  all: by rewrite E.
Qed.

(** ** Induction on schemas *)

Lemma JsonSchema_children_ind (P : JsonSchema → Prop) :
  (∀ s, Forall P (children s) → P s) → ∀ s, P s.
Proof.
  intros step. fix IH 1. intros s. apply step.
  destruct s as [ty ti de pr it ap en co df a o l nu]. unfold children.
  cbn [s_properties s_items s_additionalProperties s_anyOf s_oneOf s_allOf].
  assert (∀ vs : list JsonSchema, Forall P vs) as Hlist.
  { intros vs. induction vs as [|v vs IHvs]; constructor; [apply IH|done]. }
  repeat apply Forall_app_2.
  - destruct pr as [props|]; [|constructor].
    induction props as [|[k c] props IHp]; constructor; [apply IH|done].
  - destruct it as [[item|many]|]; [|apply Hlist|constructor].
    constructor; [apply IH|constructor].
  - destruct ap as [[extra|b]|]; try constructor; [apply IH|constructor].
  - destruct a; [apply Hlist|constructor].
  - destruct o; [apply Hlist|constructor].
  - destruct l; [apply Hlist|constructor].
Qed.

Lemma every_node_children test s :
  every_node test s = true →
  test s = true ∧ Forall (λ c, every_node test c = true) (children s).
Proof.
  destruct s as [ty ti de pr it ap en co df a o l nu]. unfold children.
  cbn [every_node s_properties s_items s_additionalProperties s_anyOf s_oneOf
       s_allOf].
  rewrite !andb_true_iff.
  intros [[[[[[Ht Hp] Hi] Ha] Hany] Hone] Hall]. split; [done|].
  assert (∀ vs, forallb (every_node test) vs = true →
                Forall (λ c, every_node test c = true) vs) as Hlist.
  { intros vs Hvs. apply Forall_forall. intros c Hc.
    rewrite forallb_forall in Hvs. by apply Hvs, list_elem_of_In. }
  repeat apply Forall_app_2.
  - destruct pr as [props|]; [|constructor].
    apply Forall_forall. intros c Hc.
    apply list_elem_of_fmap in Hc as ([k c'] & -> & Hin).
    rewrite forallb_forall in Hp. apply (Hp (k, c')). by apply list_elem_of_In.
  - destruct it as [[item|many]|]; [|by apply Hlist|constructor].
    by repeat constructor.
  - destruct ap as [[extra|b]|]; try constructor; [done|constructor].
  - destruct a; [by apply Hlist|constructor].
  - destruct o; [by apply Hlist|constructor].
  - destruct l; [by apply Hlist|constructor].
Qed.

(** ** Normalising the normalised node *)






Lemma unionVariants_children s vs v :
  unionVariants s = Some vs → v ∈ vs → v ∈ children s.
Proof.
  unfold unionVariants, first_present, children. intros Hu Hv.
  rewrite !elem_of_app.
  destruct (s_anyOf s) as [a|]; [injection Hu as ->; simpl; tauto|].
  destruct (s_oneOf s) as [o|]; [injection Hu as ->; simpl; tauto|].
  rewrite Hu. simpl. tauto.
Qed.



Lemma itemSchema_children s item : itemSchema s = Some item → item ∈ children s.
Proof.
  unfold itemSchema, children. intros Hitem. rewrite !elem_of_app. right. left.
  destruct (s_items s) as [[i|many]|]; [| |done].
  - injection Hitem as ->. left.
  - destruct many; [done|]. injection Hitem as ->. left.
Qed.





(** ** Snapshot application never raises *)

Lemma fields_of_Some base :
  nullish base = false → fields_of base = Some (readField base).
Proof. unfold fields_of. by intros ->. Qed.

Lemma coalesce_not_nullish v : nullish (coalesce v emptyObject) = false.
Proof. unfold coalesce. by destruct (nullish v) eqn:E. Qed.

Lemma objectOrEmpty_not_nullish v : nullish (objectOrEmpty v) = false.
Proof.
  unfold objectOrEmpty. destruct (truthy v && isObject v) eqn:E; [|done].
  by destruct v.
Qed.

Lemma fields_of_coalesce v :
  fields_of (coalesce v emptyObject) = Some (readField (coalesce v emptyObject)).
Proof. apply fields_of_Some, coalesce_not_nullish. Qed.

Lemma fields_of_objectOrEmpty v :
  fields_of (objectOrEmpty v) = Some (readField (objectOrEmpty v)).
Proof. apply fields_of_Some, objectOrEmpty_not_nullish. Qed.

Lemma mapM_total {A B : Type} (f : A → option B) (l : list A) :
  (∀ x, is_Some (f x)) → is_Some (mapM f l).
Proof. intros Hf. apply mapM_is_Some, Forall_forall. intros x _. apply Hf. Qed.

Section ControllerFacts.
Context `{Host}.

(** Closes a goal [is_Some (...)] whose computation is at hand. *)
Local Ltac returns := simpl; eexists; reflexivity.

(** Goes through the property reads on bases that are not null. *)
Local Ltac read_fields :=
  repeat (progress (rewrite ?fields_of_coalesce, ?fields_of_objectOrEmpty;
                    cbn [mbind option_bind])).

Lemma slackChannel_total key v : is_Some (slackChannel key v).
Proof. unfold slackChannel. read_fields. returns. Qed.

Lemma discordGuildChannel_total key v : is_Some (discordGuildChannel key v).
Proof.
  unfold discordGuildChannel. read_fields. returns.
Qed.

Lemma discordGuild_total key v : is_Some (discordGuild key v).
Proof.
  unfold discordGuild. read_fields.
  destruct (mapM_total
              (λ '(channelKey, channelValue),
                 discordGuildChannel channelKey channelValue)
              (objectEntries
                 (objectOrEmpty (readField (objectOrEmpty v) "channels"))))
    as [channels ->].
  - intros [k c]. apply discordGuildChannel_total.
  - returns.
Qed.

Lemma telegramProjection_total v :
  is_Some (telegramProjection (coalesce v emptyObject)).
Proof.
  unfold telegramProjection. read_fields. returns.
Qed.

Lemma discordProjection_total v :
  is_Some (discordProjection (coalesce v emptyObject)).
Proof.
  unfold discordProjection. read_fields.
  set (guilds := readField (coalesce v emptyObject) "guilds").
  destruct (isArray guilds); [returns|].
  destruct (isObject guilds && truthy guilds); [|returns].
  destruct (mapM_total (λ '(key, g), discordGuild key g) (objectEntries guilds))
    as [gs ->].
  - intros [k g]. apply discordGuild_total.
  - returns.
Qed.

Lemma slackProjection_total v :
  is_Some (slackProjection (coalesce v emptyObject)).
Proof.
  unfold slackProjection. read_fields.
  set (channels := readField (coalesce v emptyObject) "channels").
  destruct (isArray channels); [returns|].
  destruct (isObject channels && truthy channels); [|returns].
  destruct (mapM_total (λ '(key, c), slackChannel key c) (objectEntries channels))
    as [cs ->].
  - intros [k c]. apply slackChannel_total.
  - returns.
Qed.

Lemma signalProjection_total v :
  is_Some (signalProjection (coalesce v emptyObject)).
Proof. unfold signalProjection. read_fields. returns. Qed.

Lemma imessageProjection_total v :
  is_Some (imessageProjection (coalesce v emptyObject)).
Proof. unfold imessageProjection. read_fields. returns. Qed.

End ControllerFacts.

(** ** Defaults of the projections *)





Section ProjectionFacts.
Context `{Host}.




End ProjectionFacts.

(** ** Claims about the config state *)



(** C9.  In form mode with a form value that is null, [saveConfig] sends the
    raw text of the state.  The serialisation of the form value is sent only
    when the form value is not null (and the mode is the form mode). *)
Theorem save_sends_raw_without_form `{Host} st gateway :
  client st = Some gateway →
  connected st = true →
  (configFormMode st = FormView → nullish (configForm st) = true →
   ∃ st1 resume,
     saveConfig st
     = (st1, Await "config.set" (VObj [("raw", VStr (configRaw st))]) resume))
  ∧ (∃ st1 resume,
       saveConfig st
       = (st1, Await "config.set" (VObj [("raw", VStr (saveText st))]) resume))
  ∧ (saveText st = configRaw st
     ∨ (saveText st
        = js_trimEnd (JSON_stringify (configForm st)) +:+ newline
        ∧ configFormMode st = FormView
        ∧ nullish (configForm st) = false)).
Proof.
  intros Hclient Hconn. split; [|split].
  - intros Hmode Hnull. unfold saveConfig. rewrite Hclient, Hconn.
    do 2 eexists. f_equal. f_equal.
    unfold saveText. simpl. rewrite Hmode.
    by destruct (configForm st).
  - unfold saveConfig. rewrite Hclient, Hconn. by do 2 eexists.
  - unfold saveText. destruct (configFormMode st); [|by left].
    destruct (truthy (configForm st)) eqn:E; [|by left].
    right. split; [done|]. split; [done|]. by destruct (configForm st).
Qed.

(** The sibling [loadConfigSchema] drops a call that finds its flag set. *)
Lemma loadConfigSchema_guarded `{Host} st :
  configSchemaLoading st = true → loadConfigSchema st = (st, Done).
Proof.
  intros Hflag. unfold loadConfigSchema. rewrite Hflag.
  destruct (client st); [|done]. by destruct (connected st).
Qed.

(** [saveConfig] sends its request whatever the flag [configSaving] is. *)
Lemma saveConfig_sends `{Host} st gateway :
  client st = Some gateway → connected st = true →
  requestsSent (saveConfig st) = 1
  ∧ configSaving (saveConfig st).1 = true
  ∧ client (saveConfig st).1 = Some gateway
  ∧ connected (saveConfig st).1 = true.
Proof.
  intros Hclient Hconn. unfold saveConfig. rewrite Hclient, Hconn. done.
Qed.

(** ** Worked examples, on the example host *)

Section WorkedExamples.
#[local] Existing Instance exampleHost.



Lemma save_sends_raw_without_form_witness :
  let st :=
    set_connected true (set_client (Some gatewayClient) createState) in
  (∃ st1 resume,
     saveConfig st
     = (st1, Await "config.set" (VObj [("raw", VStr (configRaw st))]) resume))
  ∧ (∃ st1 resume,
       saveConfig st
       = (st1, Await "config.set" (VObj [("raw", VStr (saveText st))]) resume))
  ∧ (saveText st = configRaw st
     ∨ (saveText st
        = js_trimEnd (JSON_stringify (configForm st)) +:+ newline
        ∧ configFormMode st = FormView
        ∧ nullish (configForm st) = false)).
Proof.
  intros st.
  destruct (save_sends_raw_without_form st gatewayClient)
    as (Hraw & Hsent & Hwhen).
  - reflexivity.
  - reflexivity.
  - split; [apply Hraw; reflexivity|]. split; [exact Hsent|exact Hwhen].
Defined.

(** C1, evaluated on the code.  In a connected state, a call of [saveConfig]
    sets [configSaving] and sends [config.set]; a second call, made before the
    first request settles, finds the flag set and sends [config.set] again:
    two requests, where the claim allows one. *)
Theorem second_save_sends_again :
  let st0 :=
    set_connected true (set_client (Some gatewayClient) createState) in
  let first := saveConfig st0 in
  let second := saveConfig first.1 in
  configSaving first.1 = true
  ∧ requestsSent first = 1
  ∧ requestsSent second = 1
  ∧ requestsSent first + requestsSent second = 2.
Proof. repeat split. Qed.
End WorkedExamples.

(* ================================================================== *)
(** * Part III: further properties                                    *)
(* ================================================================== *)

(** ** Further properties of the path mutator *)

Section MorePropertyFacts.
Context {A : Type}.
Implicit Types (fs : list (string * A)) (k : string) (x : A).


Lemma obj_lookup_assign_ne fs k k' x :
  k ≠ k' → obj_lookup (obj_assign fs k x) k' = obj_lookup fs k'.
Proof.
  intros Hne. induction fs as [|[k0 z] fs IH]; simpl.
  - by apply String.eqb_neq in Hne as ->.
  - destruct (String.eqb k0 k) eqn:E; simpl; [|by rewrite IH].
    apply String.eqb_eq in E as ->.
    by apply String.eqb_neq in Hne as ->.
Qed.

Lemma obj_lookup_delete_ne fs k k' :
  k ≠ k' → obj_lookup (obj_delete fs k) k' = obj_lookup fs k'.
Proof.
  intros Hne. induction fs as [|[k0 z] fs IH]; simpl; [done|].
  destruct (String.eqb k0 k) eqn:E; simpl; [|by rewrite IH].
  apply String.eqb_eq in E as ->.
  by apply String.eqb_neq in Hne as ->.
Qed.

Lemma obj_lookup_None fs k : k ∉ fs.*1 → obj_lookup fs k = None.
Proof.
  induction fs as [|[k0 z] fs IH]; simpl; [done|]. intros Hnot.
  destruct (String.eqb k0 k) eqn:E.
  - apply String.eqb_eq in E as ->. exfalso. apply Hnot. left.
  - apply IH. intros Hin. apply Hnot. by right.
Qed.

Lemma obj_lookup_delete fs k :
  NoDup fs.*1 → obj_lookup (obj_delete fs k) k = None.
Proof.
  induction fs as [|[k0 z] fs IH]; simpl; [done|]. intros Hnd.
  apply NoDup_cons in Hnd as [Hnot Hnd].
  destruct (String.eqb k0 k) eqn:E; simpl.
  - apply String.eqb_eq in E as ->. by apply obj_lookup_None.
  - rewrite E. by apply IH.
Qed.

Lemma obj_assign_absent fs k x :
  obj_lookup fs k = None → obj_assign fs k x = fs ++ [(k, x)].
Proof.
  induction fs as [|[k0 z] fs IH]; simpl; [done|].
  destruct (String.eqb k0 k); [done|]. intros Hnone. by rewrite IH.
Qed.

End MorePropertyFacts.







(** The kind of the root is kept. *)
Lemma setPathValue_shape current path v current' :
  setPathValue current path v = Some current' →
  isArray current' = isArray current ∧ isObject current' = isObject current.
Proof.
  destruct path as [|key [|nextKey rest]].
  - by intros [= <-].
  - simpl. destruct (admits current key); [|by intros [= <-]].
    apply writeSlot_shape.
  - rewrite (setPathValue_cons _ _ _ nextKey) by done.
    destruct (admits current key); [|by intros [= <-]].
    destruct (nullish (readSlot current key)).
    + destruct (writeSlot current key (fresh nextKey)) as [c1|] eqn:E1;
        [|done]. cbn [mbind option_bind].
      destruct (setPathValue (fresh nextKey) (nextKey :: rest) v)
        as [child|]; [|done].
      cbn [mbind option_bind]. intros [= <-].
      destruct (storeChild_shape c1 key child) as [-> ->].
      by apply writeSlot_shape in E1.
    + destruct (setPathValue (readSlot current key) (nextKey :: rest) v)
        as [child|]; [|done].
      cbn [mbind option_bind]. intros [= <-]. apply storeChild_shape.
Qed.







(** ** The walk of [removePathValue] *)

Lemma removePathValue_cons current key rest :
  rest ≠ [] →
  removePathValue current (key :: rest) =
    if admits current key then
      if nullish (readSlot current key) then Some current
      else
        child ← removePathValue (readSlot current key) rest;
        Some (storeChild current key child)
    else Some current.
Proof. by destruct rest. Qed.

Lemma removeReached_cons current key rest :
  rest ≠ [] →
  removeReached current (key :: rest) =
    if admits current key then
      if nullish (readSlot current key) then None
      else removeReached (readSlot current key) rest
    else None.
Proof. by destruct rest. Qed.

Lemma admits_primitive current key :
  isObject current = false → admits current key = false.
Proof. destruct key, current; simpl; congruence. Qed.

Lemma removePathValue_primitive current path :
  isObject current = false → removePathValue current path = Some current.
Proof.
  intros Hprim. destruct path as [|key [|nextKey rest]]; [done| |].
  - simpl. rewrite Hprim.
    assert (isArray current = false) as -> by by destruct current.
    by destruct key.
  - rewrite removePathValue_cons by done.
    by rewrite admits_primitive.
Qed.

Lemma deleteSlot_shape current s current' :
  deleteSlot current s = Some current' →
  isArray current' = isArray current ∧ isObject current' = isObject current.
Proof.
  unfold deleteSlot. destruct current as [| |b|z|str|es ps|fs]; try done.
  - destruct (classify_array_key s); try done; by intros [= <-].
  - by intros [= <-].
Qed.

Lemma spliceSlot_shape current n :
  isArray (spliceSlot current n) = isArray current
  ∧ isObject (spliceSlot current n) = isObject current.
Proof. by destruct current. Qed.

Lemma removePathValue_shape current path current' :
  removePathValue current path = Some current' →
  isArray current' = isArray current ∧ isObject current' = isObject current.
Proof.
  destruct path as [|key [|nextKey rest]].
  - by intros [= <-].
  - simpl. destruct key as [n|s].
    + destruct (isArray current) eqn:Harr; intros [= <-]; [|done].
      rewrite <- Harr. apply spliceSlot_shape.
    + destruct (isObject current) eqn:Hobj; [|by intros [= <-]].
      rewrite <- Hobj. apply deleteSlot_shape.
  - rewrite removePathValue_cons by done.
    destruct (admits current key); [|by intros [= <-]].
    destruct (nullish (readSlot current key)); [by intros [= <-]|].
    destruct (removePathValue (readSlot current key) (nextKey :: rest))
      as [child|]; [|done].
    cbn [mbind option_bind]. intros [= <-]. apply storeChild_shape.
Qed.

Lemma removePathValue_nullish current path current' :
  removePathValue current path = Some current' →
  nullish current' = nullish current.
Proof.
  intros Hrem. destruct (isObject current) eqn:Hobj.
  - apply removePathValue_shape in Hrem as [_ Ho]. rewrite Hobj in Ho.
    by destruct current, current'.
  - rewrite removePathValue_primitive in Hrem by done. by injection Hrem as <-.
Qed.

Lemma readSlot_storeChild_removed current key path child :
  admits current key = true →
  removePathValue (readSlot current key) path = Some child →
  readSlot (storeChild current key child) key = child.
Proof.
  intros Hadm Hrem. apply readSlot_storeChild; [done|]. intros Hprim.
  rewrite removePathValue_primitive in Hrem by done. congruence.
Qed.


(** ** Slots that a call does not address *)









(** X5.  [removePathValue] makes nothing: when its walk stops before the last
    segment, at a slot that is missing or null or at a value that the next
    segment does not fit, the tree stays as it was. *)
Theorem removePathValue_stopped_walk tree path :
  removeReached tree path = None →
  removePathValue tree path = Some tree.
Proof.
  revert tree. induction path as [|key rest IH]; intros tree Hstop; [done|].
  destruct rest as [|nextKey rest]; [done|].
  rewrite removeReached_cons in Hstop by done.
  rewrite removePathValue_cons by done.
  destruct (admits tree key); [|done].
  destruct (nullish (readSlot tree key)) eqn:Hnull; [done|].
  rewrite (IH _ Hstop). cbn [mbind option_bind].
  by rewrite storeChild_readSlot.
Qed.

Lemma removePathValue_stopped_walk_witness :
  removePathValue (VObj [("a", VNull)]) [Key "a"; Key "b"; Idx 0]
  = Some (VObj [("a", VNull)]).
Proof.
  apply (removePathValue_stopped_walk (VObj [("a", VNull)])
           [Key "a"; Key "b"; Idx 0]).
  reflexivity.
Defined.

(** X6.  When the walk of [removePathValue] reaches a container, the call
    changes that container and nothing on the way to it: after the call the
    same walk reaches the container as the removal of the last segment left
    it. *)
Theorem removePathValue_at_container tree path c key :
  removeReached tree path = Some c →
  last path = Some key →
  removePathValue tree path ≫= (λ tree', removeReached tree' path)
  = removePathValue c [key].
Proof.
  revert tree. induction path as [|k rest IH]; intros tree Hreach Hlast;
    [done|].
  destruct rest as [|nextKey rest].
  - simpl in Hreach, Hlast. injection Hreach as ->. injection Hlast as ->.
    by destruct (removePathValue c [key]).
  - rewrite removeReached_cons in Hreach by done.
    rewrite removePathValue_cons by done.
    rewrite last_cons_cons in Hlast.
    destruct (admits tree k) eqn:Hadm; [|done].
    destruct (nullish (readSlot tree k)) eqn:Hnull; [done|].
    rewrite <- (IH _ Hreach Hlast).
    destruct (removePathValue (readSlot tree k) (nextKey :: rest))
      as [child|] eqn:Hchild; [|done].
    cbn [mbind option_bind].
    rewrite removeReached_cons by done.
    destruct (storeChild_shape tree k child) as [Ha Ho].
    rewrite (admits_shape _ _ _ Ha Ho), Hadm.
    rewrite (readSlot_storeChild_removed _ _ _ _ Hadm Hchild).
    by rewrite (removePathValue_nullish _ _ _ Hchild), Hnull.
Qed.

Lemma removePathValue_at_container_witness :
  removePathValue (VObj [("a", VArr [VNum 1; VNum 2] [])]) [Key "a"; Idx 0]
    ≫= (λ tree', removeReached tree' [Key "a"; Idx 0])
  = removePathValue (VArr [VNum 1; VNum 2] []) [Idx 0].
Proof.
  apply (removePathValue_at_container
           (VObj [("a", VArr [VNum 1; VNum 2] [])]) [Key "a"; Idx 0]);
    reflexivity.
Defined.


Lemma arr_splice1_end (es : list value) x :
  arr_splice1 (es ++ [x]) (length es) = es.
Proof.
  unfold arr_splice1. rewrite take_app_length.
  rewrite drop_ge; [by rewrite app_nil_r|].
  rewrite length_app. simpl. lia.
Qed.



(** ** Calls that return *)







(** X9.  Removing a position of a sequence takes one element out: the
    elements before it stay, those after it move down by one, and a
    position past the end leaves the sequence as it was.  The named
    properties of the sequence are kept. *)
Theorem removePathValue_splices (es : list value) ps (n : nat) :
  ∃ es', removePathValue (VArr es ps) [Idx n] = Some (VArr es' ps)
         ∧ (∀ i : nat, i < n → es' !! i = es !! i)
         ∧ (∀ i : nat, n ≤ i → es' !! i = es !! S i)
         ∧ (length es ≤ n → es' = es)
         ∧ (n < length es → S (length es') = length es).
Proof.
  exists (arr_splice1 es n). unfold arr_splice1. split; [done|].
  split; [|split; [|split]].
  - intros i Hi. destruct (decide (n ≤ length es)).
    + rewrite lookup_app_l by (rewrite length_take; lia).
      by rewrite lookup_take_lt.
    + rewrite take_ge, drop_ge by lia. by rewrite app_nil_r.
  - intros i Hi. destruct (decide (n ≤ length es)).
    + rewrite lookup_app_r; rewrite length_take; [|lia].
      rewrite lookup_drop. f_equal. lia.
    + rewrite take_ge, drop_ge by lia. rewrite app_nil_r.
      rewrite !lookup_ge_None_2; [done|lia|lia].
  - intros Hn. rewrite take_ge, drop_ge by lia. by rewrite app_nil_r.
  - intros Hn. rewrite length_app, length_take, length_drop. lia.
Qed.

Lemma removePathValue_splices_witness :
  ∃ es',
    removePathValue (VArr [VStr "a"; VStr "b"; VStr "c"] []) [Idx 1]
    = Some (VArr es' [])
    ∧ es' !! 0 = Some (VStr "a")
    ∧ es' !! 1 = Some (VStr "c")
    ∧ S (length es') = 3.
Proof.
  destruct (removePathValue_splices [VStr "a"; VStr "b"; VStr "c"] [] 1)
    as (es' & Hrem & Hbefore & Hafter & _ & Hlen).
  exists es'. split; [exact Hrem|]. split; [|split].
  - rewrite (Hbefore 0); [reflexivity|lia].
  - rewrite (Hafter 1); [reflexivity|lia].
  - apply Hlen. simpl. lia.
Defined.

(** ** Further properties of the config state *)

Section RequestFacts.
Context `{Host}.

(** X10.  Without a client, or while not connected, [loadConfig],
    [loadConfigSchema] and [saveConfig] send nothing and leave the state as
    it is. *)
Theorem offline_calls_do_nothing st :
  client st = None ∨ connected st = false →
  loadConfig st = (st, Done)
  ∧ loadConfigSchema st = (st, Done)
  ∧ saveConfig st = (st, Done).
Proof.
  unfold loadConfig, loadConfigSchema, saveConfig.
  intros [->| ->]; [done|]. by destruct (client st).
Qed.

(** X11.  A save that the gateway rejects keeps the edits: the form value,
    the dirty flag and the raw text stay, the error is recorded, the flag
    [configSaving] is cleared, and no reload is requested. *)
Theorem rejected_save_keeps_edits st gateway err :
  client st = Some gateway →
  connected st = true →
  settle (saveConfig st) (Rejected err)
  = (set_configSaving false (set_lastError (Some err) st), Done).
Proof.
  intros Hclient Hconn. unfold saveConfig, settle. rewrite Hclient, Hconn.
  by destruct st.
Qed.



(** X14.  [loadConfigSchema] has one request in flight at most: a call made
    while the first one is pending sends nothing and changes nothing; once
    the first has settled, whatever the answer, the flag is cleared.  A
    rejection leaves the schema as it was and records the error. *)
Theorem schema_load_is_guarded st gateway :
  client st = Some gateway →
  connected st = true →
  configSchemaLoading st = false →
  pendingRequest (loadConfigSchema st) = Some ("config.schema", emptyObject)
  ∧ loadConfigSchema (loadConfigSchema st).1 = ((loadConfigSchema st).1, Done)
  ∧ (∀ response,
       ∃ st', settle (loadConfigSchema st) response = (st', Done)
              ∧ configSchemaLoading st' = false)
  ∧ (∀ err,
       settle (loadConfigSchema st) (Rejected err)
       = (set_lastError (Some err) st, Done)).
Proof.
  intros Hclient Hconn Hflag. unfold loadConfigSchema at 1 3 4 5.
  rewrite Hclient, Hconn, Hflag. cbn [fst snd pendingRequest settle].
  split; [done|]. split; [|split].
  - unfold loadConfigSchema. simpl. by rewrite Hclient, Hconn.
  - intros response. eexists. split; [reflexivity|]. by destruct response.
  - intros err. destruct st; simpl in *. by subst.
Qed.
End RequestFacts.

(** ** Snapshots, once more *)



Section SnapshotFacts.
Context `{Host}.

(** Goes through the five projections of [applyConfigSnapshot]. *)
Local Ltac project snapshot :=
  unfold applyConfigSnapshot;
  rewrite fields_of_coalesce; cbn [mbind option_bind];
  let config := fresh "config" in
  set (config := readField (coalesce (snap_config snapshot) emptyObject));
  let tg := fresh "tg" in let dc := fresh "dc" in let sl := fresh "sl" in
  let sg := fresh "sg" in let im := fresh "im" in
  destruct (telegramProjection_total (config "telegram")) as [tg ->];
  destruct (discordProjection_total (config "discord")) as [dc ->];
  destruct (slackProjection_total (config "slack")) as [sl ->];
  destruct (signalProjection_total (config "signal")) as [sg ->];
  destruct (imessageProjection_total (config "imessage")) as [im ->];
  cbn [mbind option_bind].

(** X15.  Applying a snapshot twice is applying it once. *)
Theorem applyConfigSnapshot_again st snapshot st1 :
  applyConfigSnapshot st snapshot = Some st1 →
  applyConfigSnapshot st1 snapshot = Some st1.
Proof.
  project snapshot. intros [= <-]. cbn -[coalesce]. f_equal.
  destruct st as [? ? ? raw ? ? ? ? ? ? ? ? form dirty ? ? ? ? ? ? ? ? ? ? ? ?].
  cbn -[coalesce]. f_equal.
  - destruct (snap_raw snapshot); try done;
      by destruct (truthy (snap_config snapshot)
                   && isObject (snap_config snapshot)).
  - by destruct dirty.
Qed.

End SnapshotFacts.

Section SeedFacts.
Context `{Host}.










(** X19.  An edit, then a save in form mode: when the seed of the edit is a
    mapping or a sequence, the text that [config.set] carries is the
    serialisation of the tree that [setPathValue] made of the seed. *)
Theorem edit_then_save st gateway path v st1 :
  client st = Some gateway →
  connected st = true →
  configFormMode st = FormView →
  isObject (formSeed st) = true →
  updateConfigFormValue st path v = Some st1 →
  ∃ base,
    setPathValue (formSeed st) path v = Some base
    ∧ pendingRequest (saveConfig st1)
      = Some ("config.set",
              VObj [("raw",
                     VStr (js_trimEnd (JSON_stringify base) +:+ newline))]).
Proof.
  intros Hclient Hconn Hmode Hobj.
  unfold updateConfigFormValue, cloneConfigObject.
  destruct (setPathValue (formSeed st) path v) as [base|] eqn:Hset; [|done].
  cbn [mbind option_bind]. intros [= <-]. exists base. split; [done|].
  unfold saveConfig. cbn [client connected set_configFormDirty set_configForm].
  rewrite Hclient, Hconn. cbn [pendingRequest snd]. do 4 f_equal.
  unfold saveText. simpl. rewrite Hmode.
  apply setPathValue_shape in Hset as [_ Ho]. rewrite Hobj in Ho.
  by destruct base.
Qed.
End SeedFacts.

(** ** Further properties of the schema normaliser *)

Lemma elem_of_dedupe_eqb (l : list string) x : x ∈ dedupe String.eqb l ↔ x ∈ l.
Proof.
  split.
  - intros Hx. apply elem_of_dedupe_from in Hx as [Hx|Hx]; [|done].
    by apply elem_of_nil in Hx.
  - intros Hx. apply dedupe_from_elem_of; [|by right].
    intros a b. apply String.eqb_eq.
Qed.

Lemma NoDup_dedupe_eqb (l : list string) : NoDup (dedupe String.eqb l).
Proof.
  apply NoDup_alt. intros i j x Hi Hj.
  pose proof (distinct_by_dedupe String.eqb l) as Hd.
  destruct (Nat.lt_total i j) as [Hlt|[Heq|Hgt]]; [|done|].
  - specialize (Hd i j x x Hlt Hi Hj). by rewrite String.eqb_refl in Hd.
  - specialize (Hd j i x x Hgt Hj Hi). by rewrite String.eqb_refl in Hd.
Qed.

Lemma filter_singleton_elem_of {A : Type} (f : A → bool) (l : list A) x :
  List.filter f l = [x] → x ∈ l.
Proof.
  intros Hf. apply list_elem_of_In.
  apply (proj1 (proj1 (filter_In f x l) ltac:(rewrite Hf; by left))).
Qed.

(** The result of a union node: one enum that reports nothing, the result
    of its only non-literal variant, or the node itself with its own path. *)
Lemma normalizeSchemaNode_union_cases s path variants :
  unionVariants s = Some variants →
  (∃ N, normalizeSchemaNode s path = mkAnalysis (Some N) [])
  ∨ (∃ X, X ∈ variants
          ∧ normalizeSchemaNode s path
            = mkAnalysis
                (set_nullable (Some true)
                   <$> schema (normalizeSchemaNode X path))
                (unsupportedPaths (normalizeSchemaNode X path)))
  ∨ normalizeSchemaNode s path = mkAnalysis (Some s) [pathLabel path].
Proof.
  intros Hu. rewrite (normalizeSchemaNode_union _ _ _ Hu).
  unfold normalizeUnion. rewrite normalizeUnion_scan. cbn [scan_values
    scan_nonLiteral scan_nullable].
  destruct (List.filter is_nonLiteral variants) as [|X [|X' rest]] eqn:Hnon;
    cbn [map].
  - destruct (flat_map variant_values variants); [by right; right|].
    left. by eexists.
  - right. left. exists X. split.
    + by apply (filter_singleton_elem_of is_nonLiteral).
    + by destruct (flat_map variant_values variants).
  - right. right. by destruct (flat_map variant_values variants).
Qed.

(** X20.  [normalizeSchemaNode] always gives a schema; the analysis of
    [analyzeConfigSchema] lacks one only when the raw schema is not an
    object, and then the root is reported. *)
Theorem analysis_has_schema :
  (∀ s path, is_Some (schema (normalizeSchemaNode s path)))
  ∧ (∀ raw, schema (analyzeConfigSchema raw) = None
            ↔ raw = None)
  ∧ unsupportedPaths (analyzeConfigSchema None) = ["<root>"].
Proof.
  assert (∀ s path, is_Some (schema (normalizeSchemaNode s path))) as Hschema.
  { induction s as [s IH] using JsonSchema_children_ind. intros path.
    destruct (unionVariants s) as [variants|] eqn:Hu.
    - destruct (normalizeSchemaNode_union_cases s path _ Hu)
        as [[N ->]|[(X & HX & ->)| ->]]; [by eexists| |by eexists].
      cbn [schema]. rewrite Forall_forall in IH.
      destruct (IH X (unionVariants_children _ _ _ Hu HX) path) as [N ->].
      by eexists.
    - destruct (normalizeSchemaNode_plain s path Hu) as (N & -> & _).
      by eexists. }
  split; [done|]. split; [|done].
  intros [s|]; simpl; [|done]. split; [|done].
  intros Hnone. destruct (Hschema s []) as [N HN]. congruence.
Qed.

(** X21.  No path is reported twice. *)
Theorem unsupportedPaths_NoDup s path :
  NoDup (unsupportedPaths (normalizeSchemaNode s path)).
Proof.
  revert path. induction s as [s IH] using JsonSchema_children_ind.
  intros path. destruct (unionVariants s) as [variants|] eqn:Hu.
  - destruct (normalizeSchemaNode_union_cases s path _ Hu)
      as [[N ->]|[(X & HX & ->)| ->]]; cbn [unsupportedPaths].
    + constructor.
    + rewrite Forall_forall in IH.
      apply IH. by eapply unionVariants_children.
    + apply NoDup_singleton.
  - destruct (normalizeSchemaNode_plain s path Hu) as (N & -> & _).
    apply NoDup_dedupe_eqb.
Qed.

Lemma elem_of_concat_props {B : Type} (f : string → JsonSchema → list B)
    (props : list (string * JsonSchema)) x :
  x ∈ concat (map (λ '(key, child), f key child) props)
  ↔ ∃ key child, (key, child) ∈ props ∧ x ∈ f key child.
Proof.
  induction props as [|[k c] props IH]; simpl.
  - split; [by intros ?%elem_of_nil|]. by intros (? & ? & ?%elem_of_nil & _).
  - rewrite elem_of_app, IH. split.
    + intros [Hx|(key & child & Hin & Hx)].
      * exists k, c. split; [left|done].
      * exists key, child. split; [by right|done].
    + intros (key & child & Hin & Hx).
      apply elem_of_cons in Hin as [[= -> ->]|Hin]; [by left|].
      right. by exists key, child.
Qed.

Lemma property_children s key child :
  (key, child) ∈ default [] (s_properties s) → child ∈ children s.
Proof.
  intros Hin. unfold children. apply elem_of_app. left.
  destruct (s_properties s) as [props|]; [|by apply elem_of_nil in Hin].
  apply list_elem_of_fmap. by exists (key, child).
Qed.

Lemma extra_children s extra :
  s_additionalProperties s = Some (inl extra) → extra ∈ children s.
Proof.
  intros Hextra. unfold children. rewrite Hextra, !elem_of_app.
  right. right. left. left.
Qed.




Lemma concat_props_nil {B : Type} (f : string → JsonSchema → list B)
    (props : list (string * JsonSchema)) :
  (∀ key child, (key, child) ∈ props → f key child = []) →
  concat (map (λ '(key, child), f key child) props) = [].
Proof.
  induction props as [|[k c] props IH]; intros Hall; [done|]. simpl.
  rewrite (Hall k c) by left. apply IH. intros key child Hin.
  apply Hall. by right.
Qed.

Lemma normalizeEnumValues_some_value vs :
  existsb (λ v, negb (nullish v)) vs = true → (normalizeEnumValues vs).1 ≠ [].
Proof.
  intros Hex. apply existsb_exists in Hex as (x & Hx & Hnull).
  apply negb_true_iff in Hnull. intros Hnil.
  assert (x ∈ (normalizeEnumValues vs).1) as Hin.
  { apply normalizeEnumValues_elem_of. split; [by apply list_elem_of_In|done]. }
  rewrite Hnil in Hin. by apply elem_of_nil in Hin.
Qed.

(** X23.  A schema made of supported nodes only is reported as supported:
    no path at all. *)
Theorem supported_schema_reports_nothing s path :
  every_node supported_node s = true →
  unsupportedPaths (normalizeSchemaNode s path) = [].
Proof.
  revert path. induction s as [s IH] using JsonSchema_children_ind.
  rewrite Forall_forall in IH. intros path Hevery.
  apply every_node_children in Hevery as [Hnode Hchildren].
  rewrite Forall_forall in Hchildren.
  unfold supported_node in Hnode.
  destruct (unionVariants s) as [variants|] eqn:Hu; [done|].
  apply andb_true_iff in Hnode as [Henum Hkind].
  destruct (normalizeSchemaNode_plain s path Hu) as (N & -> & _).
  cbn [unsupportedPaths].
  assert (enumUnsupported s path = []) as ->.
  { unfold enumUnsupported. destruct (s_enum s) as [vs|]; [|done].
    apply normalizeEnumValues_some_value in Henum.
    by destruct ((normalizeEnumValues vs).1). }
  assert (kindUnsupported s path = []) as ->; [|done].
  unfold kindUnsupported. destruct (node_kind_of (nodeType s)).
  - rewrite concat_props_nil.
    + destruct (s_additionalProperties s) as [[extra|[|]]|] eqn:Hextra;
        try done.
      rewrite (IH extra); [done| |].
      * by apply extra_children.
      * by apply Hchildren, extra_children.
    + intros key child Hin. pose proof (property_children _ _ _ Hin) as Hc.
      by apply IH; [|apply Hchildren].
  - destruct (itemSchema s) as [item|] eqn:Hitem; [|done].
    pose proof (itemSchema_children _ _ Hitem) as Hc.
    by rewrite (IH item Hc _ (Hchildren item Hc)).
  - done.
  - by destruct (s_enum s).
Qed.

Lemma supported_schema_reports_nothing_witness :
  unsupportedPaths
    (normalizeSchemaNode
       (mkJsonSchema (Some (TypeName "object")) None None
          (Some [("port",
                  mkJsonSchema (Some (TypeList ["number"; "null"])) None None
                    None None None None None None None None None None);
                 ("tags",
                  mkJsonSchema (Some (TypeName "array")) None None None
                    (Some (inl (mkJsonSchema (Some (TypeName "string")) None
                                  None None None None None None None None
                                  None None None)))
                    None None None None None None None None)])
          None (Some (inr false)) None None None None None None None)
       [])
  = [].
Proof.
  apply supported_schema_reports_nothing. reflexivity.
Defined.

(** X24.  What is unsupported below a node that is not a union shows at the
    node: an object node reports every path that the schemas of its
    properties report; an object node whose schema of extra properties
    reports a path, and an array node whose item schema does, report their
    own path. *)
Theorem unsupported_children_show s path :
  unionVariants s = None →
  (node_kind_of (nodeType s) = KObject →
   ∀ key child p,
     (key, child) ∈ default [] (s_properties s) →
     p ∈ unsupportedPaths (normalizeSchemaNode child (path ++ [Key key])) →
     p ∈ unsupportedPaths (normalizeSchemaNode s path))
  ∧ (node_kind_of (nodeType s) = KObject →
     ∀ extra,
       s_additionalProperties s = Some (inl extra) →
       unsupportedPaths (normalizeSchemaNode extra (path ++ [Key "*"])) ≠ [] →
       pathLabel path ∈ unsupportedPaths (normalizeSchemaNode s path))
  ∧ (node_kind_of (nodeType s) = KArray →
     ∀ item,
       itemSchema s = Some item →
       unsupportedPaths (normalizeSchemaNode item (path ++ [Key "*"])) ≠ [] →
       pathLabel path ∈ unsupportedPaths (normalizeSchemaNode s path)).
Proof.
  intros Hu. destruct (normalizeSchemaNode_plain s path Hu) as (N & -> & _).
  cbn [unsupportedPaths]. unfold kindUnsupported.
  split; [|split]; intros ->.
  - intros key child p Hin Hp. rewrite elem_of_dedupe_eqb, !elem_of_app.
    right. left.
    apply (elem_of_concat_props
             (λ key child,
                unsupportedPaths
                  (normalizeSchemaNode child (path ++ [Key key])))).
    by exists key, child.
  - intros extra -> Hextra. rewrite elem_of_dedupe_eqb, !elem_of_app.
    right. right.
    destruct (unsupportedPaths (normalizeSchemaNode extra _)); [done|left].
  - intros item -> Hitem. rewrite elem_of_dedupe_eqb, !elem_of_app. right.
    destruct (unsupportedPaths (normalizeSchemaNode item _)); [done|left].
Qed.

Lemma unsupported_children_show_witness :
  pathLabel [Key "channels"]
  ∈ unsupportedPaths
      (normalizeSchemaNode
         (mkJsonSchema (Some (TypeName "array")) None None None
            (Some (inl emptySchema)) None None None None None None None None)
         [Key "channels"]).
Proof.
  destruct (unsupported_children_show
              (mkJsonSchema (Some (TypeName "array")) None None None
                 (Some (inl emptySchema)) None None None None None None None
                 None)
              [Key "channels"] eq_refl) as (_ & _ & Harray).
  apply (Harray eq_refl emptySchema eq_refl). vm_compute. discriminate.
Defined.

(** X25.  For a list of types, [schemaType] prefers a type that is not
    [null]: it answers with a member of the list, and with [null] only when
    the list holds nothing else; it has no answer for the empty list. *)
Theorem schemaType_of_list s ts :
  s_type s = Some (TypeList ts) →
  (schemaType s = None ↔ ts = [])
  ∧ ∀ t, schemaType s = Some t →
         t ∈ ts ∧ (t = "null" → ∀ u, u ∈ ts → u = "null").
Proof.
  intros Hty. unfold schemaType. rewrite Hty.
  destruct (List.filter (λ t, negb (String.eqb t "null")) ts) as [|t0 rest]
    eqn:Hf.
  - split; [by destruct ts|]. intros t Ht. split.
    + destruct ts as [|t' ts']; [done|]. injection Ht as ->. left.
    + intros _ u Hu. apply list_elem_of_In in Hu.
      destruct (String.eqb u "null") eqn:E; [by apply String.eqb_eq|].
      assert (In u (List.filter (λ t, negb (String.eqb t "null")) ts)) as Hin.
      { apply filter_In. by rewrite E. }
      by rewrite Hf in Hin.
  - assert (In t0 (List.filter (λ t, negb (String.eqb t "null")) ts)) as Hin.
    { rewrite Hf. by left. }
    apply filter_In in Hin as [Hin Hnot]. apply negb_true_iff in Hnot.
    split.
    + split; [done|]. intros ->. done.
    + intros t [= <-]. split; [by apply list_elem_of_In|].
      intros ->. done.
Qed.

Lemma schemaType_of_list_witness :
  let s := set_type (Some (TypeList ["null"; "string"])) emptySchema in
  (schemaType s = None ↔ ["null"; "string"] = [])
  ∧ ∀ t, schemaType s = Some t →
         t ∈ ["null"; "string"]
         ∧ (t = "null" → ∀ u, u ∈ ["null"; "string"] → u = "null").
Proof.
  intros s. apply (schemaType_of_list s ["null"; "string"]). reflexivity.
Defined.

Lemma segment_names_app l1 l2 :
  segment_names (l1 ++ l2) = segment_names l1 ++ segment_names l2.
Proof. unfold segment_names. apply omap_app. Qed.

Lemma segment_names_keys names : segment_names (map Key names) = names.
Proof.
  induction names as [|k names IH]; [done|].
  change (segment_names (map Key (k :: names)))
    with (k :: segment_names (map Key names)).
  by rewrite IH.
Qed.

(** X26.  [pathKey] does not see the positions in lists: a path with an
    index anywhere has the key of the path without it, so that the entries
    of a list share the key of the list; and a path of names has them joined
    by dots. *)
Theorem pathKey_skips_indices pre n post names :
  pathKey (pre ++ Idx n :: post) = pathKey (pre ++ post)
  ∧ pathKey (map Key names) = join_dot names.
Proof.
  unfold pathKey. split.
  - by rewrite !segment_names_app.
  - by rewrite segment_names_keys.
Qed.

(** ** The form view: default values and handlers *)

Lemma defaultValue_defined schema : defaultValue schema ≠ VUndefined.
Proof.
  unfold defaultValue. destruct schema as [s|]; [|done].
  assert ((let type := schemaType s in
           if is_type "object" type then emptyObject
           else if is_type "array" type then emptyArray
           else if is_type "boolean" type then VBool false
           else if is_type "number" type || is_type "integer" type
                then VNum 0 else VStr "") ≠ VUndefined) as Hby.
  { cbv zeta. destruct (is_type "object" _); [done|].
    destruct (is_type "array" _); [done|].
    destruct (is_type "boolean" _); [done|].
    by destruct (is_type "number" _ || is_type "integer" _). }
  destruct (s_default s) as [[]|]; done.
Qed.

(** X27.  The button Add of a list appends one entry, which is never
    [undefined], and keeps the entries before it; the button Remove of that
    new entry gives the entries back. *)
Theorem arrayAdd_appends s v :
  ∃ d, arrayOf (arrayAdd s v) = arrayOf v ++ [d]
       ∧ d = defaultValue (itemSchema s)
       ∧ d ≠ VUndefined
       ∧ arrayRemove (arrayAdd s v) (length (arrayOf v)) = VArr (arrayOf v) [].
Proof.
  exists (defaultValue (itemSchema s)). split; [done|]. split; [done|].
  split; [apply defaultValue_defined|].
  unfold arrayRemove, arrayAdd. cbn [arrayOf]. by rewrite arr_splice1_end.
Qed.

Lemma obj_lookup_Some_elem {A : Type} (fs : list (string * A)) k x :
  obj_lookup fs k = Some x → (k, x) ∈ fs.
Proof.
  induction fs as [|[k0 z] fs IH]; simpl; [done|].
  destruct (String.eqb k0 k) eqn:E.
  - apply String.eqb_eq in E as ->. intros [= ->]. left.
  - intros Hx. right. by apply IH.
Qed.

Lemma obj_lookup_None_inv {A : Type} (fs : list (string * A)) k :
  obj_lookup fs k = None → k ∉ fs.*1.
Proof.
  induction fs as [|[k0 z] fs IH]; simpl; [by intros _ ?%elem_of_nil|].
  destruct (String.eqb k0 k) eqn:E; [done|]. intros Hnone.
  apply not_elem_of_cons. split; [|by apply IH].
  apply String.eqb_neq in E. congruence.
Qed.

Lemma obj_lookup_NoDup {A : Type} (fs : list (string * A)) k x :
  NoDup fs.*1 → (k, x) ∈ fs → obj_lookup fs k = Some x.
Proof.
  induction fs as [|[k0 z] fs IH]; simpl; [by intros _ ?%elem_of_nil|].
  intros Hnd Hin. apply NoDup_cons in Hnd as [Hnot Hnd].
  apply elem_of_cons in Hin as [[= -> ->]|Hin].
  - by rewrite String.eqb_refl.
  - destruct (String.eqb k0 k) eqn:E; [|by apply IH].
    apply String.eqb_eq in E as ->. exfalso. apply Hnot.
    apply list_elem_of_fmap. by exists (k, x).
Qed.

Lemma newKey_inj i j : newKey i = newKey j → i = j.
Proof.
  unfold newKey. cbn [String.append]. intros [= Heq].
  exact (pretty_nat_inj _ _ Heq).
Qed.

Lemma newKey_not_inherited i :
  existsb (String.eqb (newKey i)) objectPrototypeNames = false.
Proof. reflexivity. Qed.

Lemma hasProperty_newKey next i :
  hasProperty next (newKey i) = true → newKey i ∈ next.*1.
Proof.
  unfold hasProperty. destruct (obj_lookup next (newKey i)) as [x|] eqn:E.
  - intros _. apply list_elem_of_fmap. exists (newKey i, x).
    split; [done|]. by apply obj_lookup_Some_elem.
  - by rewrite newKey_not_inherited.
Qed.

Lemma findNewKey_None next index fuel :
  findNewKey next index fuel = None →
  ∀ j, index ≤ j < index + fuel → hasProperty next (newKey j) = true.
Proof.
  revert index. induction fuel as [|fuel IH]; intros index; simpl.
  - intros _ j Hj. lia.
  - destruct (hasProperty next (newKey index)) eqn:E; [|done].
    intros Hnone j Hj. destruct (decide (j = index)) as [->|Hne]; [done|].
    apply (IH (S index) Hnone). lia.
Qed.

Lemma findNewKey_Some next index fuel key :
  findNewKey next index fuel = Some key →
  ∃ j, index ≤ j ∧ key = newKey j ∧ hasProperty next key = false
       ∧ ∀ m, index ≤ m < j → hasProperty next (newKey m) = true.
Proof.
  revert index. induction fuel as [|fuel IH]; intros index; simpl; [done|].
  destruct (hasProperty next (newKey index)) eqn:E.
  - intros Hsome. destruct (IH _ Hsome) as (j & Hj & -> & Hfree & Hused).
    exists j. split; [lia|]. split; [done|]. split; [done|].
    intros m Hm. destruct (decide (m = index)) as [->|Hne]; [done|].
    apply Hused. lia.
  - intros [= <-]. exists index. split; [lia|]. split; [done|].
    split; [done|]. intros m Hm. lia.
Qed.

(** The loop ends within one turn more than there are entries: that many
    keys [new-1], [new-2], ... cannot all be taken. *)
Lemma findNewKey_is_Some next index :
  is_Some (findNewKey next index (S (length next))).
Proof.
  destruct (findNewKey next index (S (length next))) as [key|] eqn:E;
    [by eexists|].
  exfalso. pose proof (findNewKey_None _ _ _ E) as Hall.
  assert (length (newKey <$> seq index (S (length next)))
          ≤ length next.*1) as Hle.
  { apply submseteq_length, NoDup_submseteq.
    - apply NoDup_fmap_2; [intros i j; apply newKey_inj|apply NoDup_seq].
    - intros key Hin.
      apply list_elem_of_fmap in Hin as (j & -> & Hj).
      apply hasProperty_newKey, Hall.
      apply elem_of_seq in Hj. lia. }
  rewrite !length_fmap, length_seq in Hle. lia.
Qed.

(** X28.  The button Add of a map field always finds a key: the first of
    [new-1], [new-2], ... that the value does not have.  It hands on the
    entries of the value, unchanged, followed by that key with the default
    value of the schema. *)
Theorem mapFieldAdd_fresh_key s v :
  ∃ index,
    1 ≤ index
    ∧ hasProperty (spreadOf v) (newKey index) = false
    ∧ (∀ m, 1 ≤ m < index → hasProperty (spreadOf v) (newKey m) = true)
    ∧ mapFieldAdd s v
      = Some (VObj (spreadOf v ++ [(newKey index, defaultValue (Some s))])).
Proof.
  unfold mapFieldAdd. cbv zeta.
  destruct (findNewKey_is_Some (spreadOf v) 1) as [key Hkey].
  rewrite Hkey. cbn [mbind option_bind].
  apply findNewKey_Some in Hkey as (index & Hindex & -> & Hfree & Hused).
  exists index. split; [done|]. split; [done|]. split; [done|].
  rewrite obj_assign_absent; [done|].
  unfold hasProperty in Hfree.
  by destruct (obj_lookup (spreadOf v) (newKey index)).
Qed.

Lemma elem_of_mapEntries v reservedKeys (i : nat) key x :
  mapEntries v reservedKeys !! i = Some (key, x) → (key, x) ∈ spreadOf v.
Proof.
  intros Hi. apply list_elem_of_lookup_2 in Hi.
  apply list_elem_of_In, filter_In in Hi as [Hin _].
  by apply list_elem_of_In.
Qed.

Section MapFieldFacts.
Context `{Host}.

(** X29.  The key input of an entry of a map field hands on a patch only
    for a new key that is not empty, differs from the old one and is not a
    property of the value yet, so that no entry is overwritten.  In the
    patch the entry has moved to the new key, the old key is gone, and the
    other entries are as they were. *)
Theorem mapFieldRename_moves_entry v reservedKeys i input result :
  NoDup (spreadOf v).*1 →
  mapFieldRename v reservedKeys i input = Some result →
  ∃ key x fs,
    mapEntries v reservedKeys !! i = Some (key, x)
    ∧ js_trim input ≠ ""
    ∧ js_trim input ≠ key
    ∧ hasProperty (spreadOf v) (js_trim input) = false
    ∧ result = VObj fs
    ∧ obj_lookup fs (js_trim input) = Some x
    ∧ obj_lookup fs key = None
    ∧ ∀ k, k ≠ key → k ≠ js_trim input →
           obj_lookup fs k = obj_lookup (spreadOf v) k.
Proof.
  intros Hnd. unfold mapFieldRename.
  destruct (mapEntries v reservedKeys !! i) as [[key x]|] eqn:Hi; [|done].
  cbn [mbind option_bind]. cbv zeta.
  set (nextKey := js_trim input).
  destruct (String.eqb nextKey "") eqn:Hempty; [done|].
  destruct (String.eqb nextKey key) eqn:Hsame; [done|].
  apply String.eqb_neq in Hempty, Hsame. cbn [orb].
  destruct (hasProperty (spreadOf v) nextKey) eqn:Hhas; [done|].
  intros [= <-].
  assert (obj_lookup (spreadOf v) nextKey = None) as Hnew.
  { unfold hasProperty in Hhas. by destruct (obj_lookup (spreadOf v) nextKey). }
  rewrite (obj_lookup_NoDup _ _ x Hnd (elem_of_mapEntries _ _ _ _ _ Hi)).
  cbn [default].
  exists key, x. eexists. split; [done|]. split; [done|]. split; [done|].
  split; [done|]. split; [reflexivity|]. split; [|split].
  - rewrite obj_lookup_delete_ne by done. apply obj_lookup_assign.
  - apply obj_lookup_delete. rewrite obj_assign_absent by done.
    rewrite fmap_app. apply NoDup_app. split; [done|]. split.
    + intros k Hk ->%list_elem_of_singleton.
      by apply (obj_lookup_None_inv _ _ Hnew).
    + apply NoDup_singleton.
  - intros k Hk Hk'. rewrite obj_lookup_delete_ne by done.
    by rewrite obj_lookup_assign_ne.
Qed.
End MapFieldFacts.

(** X30.  The button Remove of an entry of a map field hands on the value
    without the key of that entry, and with every other entry as it was. *)
Theorem mapFieldRemove_drops_entry v reservedKeys i result :
  NoDup (spreadOf v).*1 →
  mapFieldRemove v reservedKeys i = Some result →
  ∃ key x fs,
    mapEntries v reservedKeys !! i = Some (key, x)
    ∧ result = VObj fs
    ∧ obj_lookup fs key = None
    ∧ ∀ k, k ≠ key → obj_lookup fs k = obj_lookup (spreadOf v) k.
Proof.
  intros Hnd. unfold mapFieldRemove.
  destruct (mapEntries v reservedKeys !! i) as [[key x]|] eqn:Hi; [|done].
  cbn [mbind option_bind]. intros [= <-].
  exists key, x. eexists. split; [done|]. split; [reflexivity|]. split.
  - by apply obj_lookup_delete.
  - intros k Hk. by apply obj_lookup_delete_ne.
Qed.

(** ** Further worked examples, on the example host *)

Section FurtherExamples.
#[local] Existing Instance exampleHost.

Lemma offline_calls_do_nothing_witness :
  loadConfig createState = (createState, Done)
  ∧ loadConfigSchema createState = (createState, Done)
  ∧ saveConfig createState = (createState, Done).
Proof.
  apply (offline_calls_do_nothing createState). left. reflexivity.
Defined.

Lemma rejected_save_keeps_edits_witness :
  let st :=
    set_configFormDirty true
      (set_configForm (VObj [("gateway", VObj [("port", VNum 1)])])
         (set_connected true (set_client (Some gatewayClient) createState))) in
  settle (saveConfig st) (Rejected "Error: invalid config")
  = (set_configSaving false
       (set_lastError (Some "Error: invalid config") st), Done).
Proof.
  intros st.
  apply (rejected_save_keeps_edits st gatewayClient); reflexivity.
Defined.



Lemma schema_load_is_guarded_witness :
  let st :=
    set_connected true (set_client (Some gatewayClient) createState) in
  pendingRequest (loadConfigSchema st) = Some ("config.schema", emptyObject)
  ∧ loadConfigSchema (loadConfigSchema st).1 = ((loadConfigSchema st).1, Done)
  ∧ (∀ response,
       ∃ st', settle (loadConfigSchema st) response = (st', Done)
              ∧ configSchemaLoading st' = false)
  ∧ (∀ err,
       settle (loadConfigSchema st) (Rejected err)
       = (set_lastError (Some err) st, Done)).
Proof.
  intros st. apply (schema_load_is_guarded st gatewayClient); reflexivity.
Defined.

Lemma applyConfigSnapshot_again_witness :
  let snapshot :=
    {| snap_config := VObj [("slack", VObj [("botToken", VStr "t")])];
       snap_raw := VUndefined;
       snap_valid := VBool false;
       snap_issues := VNull |} in
  ∃ st1, applyConfigSnapshot createState snapshot = Some st1
         ∧ applyConfigSnapshot st1 snapshot = Some st1.
Proof.
  intros snapshot. eexists. split; [reflexivity|].
  apply (applyConfigSnapshot_again createState). reflexivity.
Defined.



Lemma edit_then_save_witness :
  let st :=
    set_connected true (set_client (Some gatewayClient) createState) in
  ∃ st1 base,
    updateConfigFormValue st [Key "gateway"; Key "port"] (VNum 1) = Some st1
    ∧ setPathValue (formSeed st) [Key "gateway"; Key "port"] (VNum 1)
      = Some base
    ∧ pendingRequest (saveConfig st1)
      = Some ("config.set",
              VObj [("raw",
                     VStr (js_trimEnd (JSON_stringify base) +:+ newline))]).
Proof.
  intros st. eexists.
  destruct (edit_then_save st gatewayClient [Key "gateway"; Key "port"]
              (VNum 1) _ eq_refl eq_refl eq_refl eq_refl eq_refl)
    as (base & Hset & Hsent).
  exists base. split; [reflexivity|]. split; [exact Hset|exact Hsent].
Defined.

Lemma mapFieldRename_moves_entry_witness :
  let v := Some [("a", VNum 1); ("b", VNum 2)] in
  ∃ key x fs,
    mapEntries v [] !! 0 = Some (key, x)
    ∧ js_trim "c" ≠ ""
    ∧ js_trim "c" ≠ key
    ∧ hasProperty (spreadOf v) (js_trim "c") = false
    ∧ VObj [("b", VNum 2); ("c", VNum 1)] = VObj fs
    ∧ obj_lookup fs (js_trim "c") = Some x
    ∧ obj_lookup fs key = None
    ∧ ∀ k, k ≠ key → k ≠ js_trim "c" →
           obj_lookup fs k = obj_lookup (spreadOf v) k.
Proof.
  intros v.
  apply (mapFieldRename_moves_entry v [] 0 "c").
  - simpl. compute_done.
  - reflexivity.
Defined.
End FurtherExamples.

Lemma mapFieldRemove_drops_entry_witness :
  let v := Some [("a", VNum 1); ("b", VNum 2)] in
  ∃ key x fs,
    mapEntries v ["a"] !! 0 = Some (key, x)
    ∧ VObj [("a", VNum 1)] = VObj fs
    ∧ obj_lookup fs key = None
    ∧ ∀ k, k ≠ key → obj_lookup fs k = obj_lookup (spreadOf v) k.
Proof.
  intros v.
  apply (mapFieldRemove_drops_entry v ["a"] 0).
  - simpl. compute_done.
  - reflexivity.
Defined.
